(** * TDAmeritradeAPI: the curl transport layer and the streaming helpers

    A shallow embedding of [src/curl_connect.cpp] (namespace [conn]) and of
    [src/streaming/streaming_info.cpp] (namespace [tdma]).

    The connection object and the part of libcurl it talks to are modelled
    as one explicit state record; member functions are computations in a
    state-and-exception monad, so that the state a C++ exception leaves
    behind stays observable.  libcurl's own decisions (whether an option is
    accepted, whether an allocation succeeds, what a transfer delivers) are
    section variables. *)

From stdpp Require Import gmap strings pretty sorting.
From Stdlib Require Import ZArith Ascii String HexadecimalString.

Open Scope string_scope.
Open Scope list_scope.
Open Scope Z_scope.

#[local] Arguments String.append !_ _ / : simpl nomatch.

(** ** Option identifiers *)

(** The [CURLoption] enumerators used by the translation unit. *)
Inductive CURLoption : Type :=
  | CURLOPT_WRITEDATA
  | CURLOPT_URL
  | CURLOPT_HTTPHEADER
  | CURLOPT_HEADER
  | CURLOPT_POST
  | CURLOPT_SSL_VERIFYPEER
  | CURLOPT_CAINFO
  | CURLOPT_HTTPGET
  | CURLOPT_SSL_VERIFYHOST
  | CURLOPT_CAPATH
  | CURLOPT_NOSIGNAL
  | CURLOPT_ACCEPT_ENCODING
  | CURLOPT_COPYPOSTFIELDS
  | CURLOPT_TCP_KEEPALIVE
  | CURLOPT_WRITEFUNCTION.

(** Their numeric values in libcurl's [curl.h]; [std::map<CURLoption,_>]
    orders its keys by them and [to_string(opt)] prints them. *)
Definition CURLoption_code (o : CURLoption) : Z :=
  match o with
  | CURLOPT_WRITEDATA => 10001
  | CURLOPT_URL => 10002
  | CURLOPT_HTTPHEADER => 10023
  | CURLOPT_HEADER => 42
  | CURLOPT_POST => 47
  | CURLOPT_SSL_VERIFYPEER => 64
  | CURLOPT_CAINFO => 10065
  | CURLOPT_HTTPGET => 80
  | CURLOPT_SSL_VERIFYHOST => 81
  | CURLOPT_CAPATH => 10097
  | CURLOPT_NOSIGNAL => 99
  | CURLOPT_ACCEPT_ENCODING => 10102
  | CURLOPT_COPYPOSTFIELDS => 10165
  | CURLOPT_TCP_KEEPALIVE => 213
  | CURLOPT_WRITEFUNCTION => 20011
  end.

Definition all_options : list CURLoption :=
  [ CURLOPT_WRITEDATA; CURLOPT_URL; CURLOPT_HTTPHEADER; CURLOPT_HEADER;
    CURLOPT_POST; CURLOPT_SSL_VERIFYPEER; CURLOPT_CAINFO; CURLOPT_HTTPGET;
    CURLOPT_SSL_VERIFYHOST; CURLOPT_CAPATH; CURLOPT_NOSIGNAL;
    CURLOPT_ACCEPT_ENCODING; CURLOPT_COPYPOSTFIELDS; CURLOPT_TCP_KEEPALIVE;
    CURLOPT_WRITEFUNCTION ].

Definition CURLoption_of_code (z : Z) : option CURLoption :=
  find (fun o => bool_decide (CURLoption_code o = z)) all_options.

#[global] Instance CURLoption_eq_dec : EqDecision CURLoption.
Proof. solve_decision. Defined.

#[global] Instance CURLoption_countable : Countable CURLoption :=
  inj_countable CURLoption_code CURLoption_of_code
    (fun o => match o with
              | CURLOPT_WRITEDATA | CURLOPT_URL | CURLOPT_HTTPHEADER
              | CURLOPT_HEADER | CURLOPT_POST | CURLOPT_SSL_VERIFYPEER
              | CURLOPT_CAINFO | CURLOPT_HTTPGET | CURLOPT_SSL_VERIFYHOST
              | CURLOPT_CAPATH | CURLOPT_NOSIGNAL | CURLOPT_ACCEPT_ENCODING
              | CURLOPT_COPYPOSTFIELDS | CURLOPT_TCP_KEEPALIVE
              | CURLOPT_WRITEFUNCTION => eq_refl
              end).

(** ** Values handed to [set_option] *)

(** [std::string::c_str()] read back as a C string: the characters before
    the first NUL. *)
Fixpoint c_str (s : string) : string :=
  match s with
  | EmptyString => EmptyString
  | String c r => if Ascii.eqb c Ascii.zero then EmptyString else String c (c_str r)
  end.

(** The argument types [set_option] is instantiated with in
    [curl_connect.cpp]:
    [long], [const char*] and pointers (a function, a [WriteCallback*], a
    [curl_slist*]); a null pointer is [PPtr None]. *)
Inductive param : Type :=
  | PLong (n : Z)
  | PStr (s : string)
  | PPtr (p : option positive).

#[global] Instance param_eq_dec : EqDecision param.
Proof. solve_decision. Defined.

(** Modelled from the spec: the [to_string] overloads of the header
    [curl_connect.h] give "the string form of whatever was last set": a
    number in decimal, a C string as it is, a pointer as its address (the
    renderer reads it back with [stoull]). *)
Definition to_string (p : param) : string :=
  match p with
  | PLong n => pretty n
  | PStr s => s
  | PPtr None => "0"
  | PPtr (Some a) => pretty (Npos a)
  end.

(** ** Exceptions *)

Inductive exn : Type :=
  | CurlException (what : string)
  | CurlOptionException (what : string) (option : CURLoption) (value : string)
  | CurlConnectionError (what : string) (code : Z).

(** [CurlOptionException(CURLoption opt, string val)] *)
Definition CurlOptionException2 (opt : CURLoption) (val : string) : exn :=
  CurlOptionException
    ("error setting easy curl option (" +:+ pretty (CURLoption_code opt)
       +:+ ") with value (" +:+ val +:+ ")")
    opt val.

(** [CurlConnectionError(CURLcode code)] *)
Definition CurlConnectionError1 (code : Z) : exn :=
  CurlConnectionError ("connection error (" +:+ pretty code +:+ ")") code.

Definition closed_msg : string := "connection/handle has been closed".

(** ** State *)

(** What one transfer does, as far as [execute] can observe it. *)
Record perform_outcome : Type := mk_outcome {
  ccode : Z;                 (* CURLcode returned; 0 is CURLE_OK *)
  chunks : list string;      (* body chunks passed to the write function *)
  response_code : Z;         (* CURLINFO_RESPONSE_CODE afterwards *)
  elapsed : N                (* clock ticks the blocking call takes *)
}.

(** The connection's members followed by the libcurl state behind them. *)
Record state : Type := mk_state {
  _header : option positive;            (* curl_slist* _header *)
  _handle : option positive;            (* CURL* _handle *)
  _options : gmap CURLoption string;    (* the option registry *)
  easy_opts : gmap CURLoption param;    (* options applied on the easy handle *)
  setopt_log : list (CURLoption * param);
                                        (* accepted curl_easy_setopt calls, oldest first *)
  slists : gmap positive (list string); (* live curl_slist lists, by head *)
  last_response : Z;                    (* response code of the last transfer *)
  performs : nat;                       (* transfers performed so far *)
  clock : Z                             (* clock_ty::now() *)
}.

Definition with_header (h : option positive) (s : state) : state :=
  mk_state h (_handle s) (_options s) (easy_opts s) (setopt_log s) (slists s)
           (last_response s) (performs s) (clock s).
Definition with_handle (h : option positive) (s : state) : state :=
  mk_state (_header s) h (_options s) (easy_opts s) (setopt_log s) (slists s)
           (last_response s) (performs s) (clock s).
Definition with_options (o : gmap CURLoption string) (s : state) : state :=
  mk_state (_header s) (_handle s) o (easy_opts s) (setopt_log s) (slists s)
           (last_response s) (performs s) (clock s).
Definition with_easy_opts (o : gmap CURLoption param) (s : state) : state :=
  mk_state (_header s) (_handle s) (_options s) o (setopt_log s) (slists s)
           (last_response s) (performs s) (clock s).
Definition with_setopt_log (l : list (CURLoption * param)) (s : state) : state :=
  mk_state (_header s) (_handle s) (_options s) (easy_opts s) l (slists s)
           (last_response s) (performs s) (clock s).
Definition with_slists (l : gmap positive (list string)) (s : state) : state :=
  mk_state (_header s) (_handle s) (_options s) (easy_opts s) (setopt_log s) l
           (last_response s) (performs s) (clock s).

(** The entries of the [curl_slist] headed at [l], in list order; a null
    list has none. *)
Definition slist_data (l : option positive) (s : state) : list string :=
  match l with
  | Some a => default [] (slists s !! a)
  | None => []
  end.

(** ** The state-and-exception monad *)

Inductive result (A : Type) : Type :=
  | Ok (a : A)
  | Throw (e : exn).
Arguments Ok {A} a.
Arguments Throw {A} e.

Definition M (A : Type) : Type := state -> state * result A.

Definition ret {A} (a : A) : M A := fun s => (s, Ok a).
Definition throw {A} (e : exn) : M A := fun s => (s, Throw e).
Definition bind {A B} (m : M A) (k : A -> M B) : M B :=
  fun s => match m s with
           | (s', Ok a) => k a s'
           | (s', Throw e) => (s', Throw e)
           end.
Definition get : M state := fun s => (s, Ok s).
Definition modify (f : state -> state) : M unit := fun s => (f s, Ok tt).

Notation "'do' x <- m ; k" := (bind m (fun x => k))
  (at level 60, x name, m at next level, right associativity).
Notation "'call' m ; k" := (bind m (fun _ => k))
  (at level 60, m at next level, right associativity).

(** A range-for loop whose body may throw. *)
Fixpoint for_each {A} (body : A -> M unit) (l : list A) : M unit :=
  match l with
  | [] => ret tt
  | x :: r => call body x; for_each body r
  end.

(** ** C library conversions the sources rely on *)

Definition isspace (c : ascii) : bool :=
  let n := nat_of_ascii c in
  (n =? 32)%nat || ((9 <=? n)%nat && (n <=? 13)%nat).

Definition digit_of (c : ascii) : option Z :=
  let n := nat_of_ascii c in
  if ((48 <=? n)%nat && (n <=? 57)%nat) then Some (Z.of_nat n - 48) else None.

Fixpoint skip_spaces (s : string) : string :=
  match s with
  | String c r => if isspace c then skip_spaces r else s
  | EmptyString => s
  end.

(** The value of the longest prefix of digits, continuing from [acc]. *)
Fixpoint read_digits (acc : Z) (s : string) : Z :=
  match s with
  | String c r =>
      match digit_of c with
      | Some d => read_digits (acc * 10 + d) r
      | None => acc
      end
  | EmptyString => acc
  end.

Definition starts_with_digit (s : string) : bool :=
  match s with
  | String c _ => bool_decide (is_Some (digit_of c))
  | EmptyString => false
  end.

(** The common part of [strtol] and [strtoull] in base 10 (C locale):
    blanks, an optional sign, then the longest run of digits; [None] when
    there is no digit to convert.  The result is the sign and the
    magnitude. *)
Definition strto (str : string) : option (bool * Z) :=
  let s1 := skip_spaces str in
  let '(neg, s2) :=
    match s1 with
    | String "-" r => (true, r)
    | String "+" r => (false, r)
    | _ => (false, s1)
    end in
  if starts_with_digit s2 then Some (neg, read_digits 0 s2) else None.

Definition INT_MIN : Z := - 2147483648.
Definition INT_MAX : Z := 2147483647.

(** [std::stoull]: [None] stands for the exception it throws when nothing
    converts or the magnitude does not fit 64 bits; a minus sign negates
    modulo 2^64, as [strtoull] does. *)
Definition stoull (str : string) : option N :=
  match strto str with
  | None => None
  | Some (neg, v) =>
      if 2 ^ 64 <=? v then None
      else Some (Z.to_N (if (neg : bool) then (2 ^ 64 - v) mod 2 ^ 64 else v))
  end.

(** [out << hex << n] *)
Definition hex (n : N) : string :=
  HexadecimalString.NilZero.string_of_uint (N.to_hex_uint n).

(** ** Pure string helpers of [curl_connect.cpp] *)

(** [std::find(b, e, c)] on a string: the text before the first [c] and the
    text after it, or [None] when [find] returns [e]. *)
Fixpoint split_first (c : ascii) (s : string) : option (string * string) :=
  match s with
  | EmptyString => None
  | String a r =>
      if Ascii.eqb a c then Some (EmptyString, r)
      else match split_first c r with
           | Some (k, v) => Some (String a k, v)
           | None => None
           end
  end.

(** [std::find_first_of(b, end, C.cbegin(), C.cend())] for the one-character
    set [C]: the range [[b,e)], and the text from [e + 1] on unless [e] is
    the end. *)
Fixpoint find_first_of (c : ascii) (b : string) : string * option string :=
  match b with
  | EmptyString => (EmptyString, None)
  | String a r =>
      if Ascii.eqb a c then (EmptyString, Some r)
      else let '(s, e) := find_first_of c r in (String a s, e)
  end.

(** What one round of the loop of [fields_str_to_map] appends to [res] for
    the range [s]. *)
Definition field_of_segment (s : string) : list (string * string) :=
  if bool_decide (s = EmptyString) then []
  else match split_first "=" s with
       | Some (k, v) => [(k, v)]
       | None => []
       end.

(** The do-while loop of [fields_str_to_map] from the position [b]; every
    round but the last moves [b] past a separator, so one more round than
    there are characters is enough. *)
Fixpoint fields_loop (fuel : nat) (b : string) : list (string * string) :=
  match fuel with
  | O => []
  | S fuel' =>
      let '(s, e) := find_first_of "&" b in
      field_of_segment s ++
      match e with
      | None => []
      | Some b' => fields_loop fuel' b'
      end
  end.

Definition fields_str_to_map (fstr : string) : list (string * string) :=
  fields_loop (S (String.length fstr)) fstr.

(** [header_list_to_map]: one pair per node, split at the first colon.  A
    node without a colon makes [i + 1] pass the end of the string, which is
    undefined behaviour: [None]. *)
Fixpoint header_list_to_map (hlist : list string) : option (list (string * string)) :=
  match hlist with
  | [] => Some []
  | s :: next =>
      match split_first ":" s with
      | Some (k, v) =>
          match header_list_to_map next with
          | Some res => Some ((k, v) :: res)
          | None => None
          end
      | None => None
      end
  end.

(** The text [SET_fields] streams into [ss]. *)
Fixpoint fields_stream (fields : list (string * string)) : string :=
  match fields with
  | [] => EmptyString
  | f :: r => f.1 +:+ "=" +:+ f.2 +:+ "&" +:+ fields_stream r
  end.

(** [s.erase(s.end()-1, s.end())] *)
Fixpoint erase_last (s : string) : string :=
  match s with
  | EmptyString => EmptyString
  | String a EmptyString => EmptyString
  | String a r => String a (erase_last r)
  end.

(** The string [s] that [SET_fields] hands to the engine for a non-empty
    field list. *)
Definition fields_wire (fields : list (string * string)) : string :=
  let s := fields_stream fields in
  if bool_decide (s = EmptyString) then s else erase_last s.

(** [h.first + ": " + h.second] *)
Definition header_line (h : string * string) : string :=
  h.1 +:+ ": " +:+ h.2.

(** [WriteCallback::write]: appends [sz * n] bytes of [input] to the buffer
    and reports how many were stored. *)
Definition WriteCallback_write (input : string) (buf : string) : string * nat :=
  (buf +:+ input, String.length input).

(** *** The renderer, [operator<<(ostream&, CurlConnection&)] *)

(** [CurlConnection::option_strings]; [CURLOPT_HEADER] has no entry. *)
Definition option_strings (o : CURLoption) : option string :=
  match o with
  | CURLOPT_SSL_VERIFYPEER => Some "CURLOPT_SSL_VERIFYPEER"
  | CURLOPT_SSL_VERIFYHOST => Some "CURLOPT_SSL_VERIFYHOST"
  | CURLOPT_CAINFO => Some "CURLOPT_CAINFO"
  | CURLOPT_CAPATH => Some "CURLOPT_CAPATH"
  | CURLOPT_URL => Some "CURLOPT_URL"
  | CURLOPT_ACCEPT_ENCODING => Some "CURLOPT_ACCEPT_ENCODING"
  | CURLOPT_TCP_KEEPALIVE => Some "CURLOPT_TCP_KEEPALIVE"
  | CURLOPT_HTTPGET => Some "CURLOPT_HTTPGET"
  | CURLOPT_POST => Some "CURLOPT_POST"
  | CURLOPT_COPYPOSTFIELDS => Some "CURLOPT_COPYPOSTFIELDS"
  | CURLOPT_WRITEFUNCTION => Some "CURLOPT_WRITEFUNCTION"
  | CURLOPT_WRITEDATA => Some "CURLOPT_WRITEDATA"
  | CURLOPT_HTTPHEADER => Some "CURLOPT_HTTPHEADER"
  | CURLOPT_NOSIGNAL => Some "CURLOPT_NOSIGNAL"
  | CURLOPT_HEADER => None
  end.

Definition TAB : string := String (ascii_of_nat 9) EmptyString.

(** One decoded pair, as both loops of the renderer print it (without the
    [endl]). *)
Definition pair_line (p : string * string) : string :=
  TAB +:+ TAB +:+ p.1 +:+ TAB +:+ p.2.

(** The lines one registry entry [opt] contributes for the connection
    [conn]; [None] when the body does not complete ([stoull] throws, or
    [header_list_to_map] runs past a node). *)
Definition render_entry (conn : state) (opt : CURLoption * string)
  : option (list string) :=
  match option_strings opt.1 with
  | None => Some [TAB +:+ "UNKNOWN"]
  | Some name =>
      match opt.1 with
      | CURLOPT_COPYPOSTFIELDS =>
          Some ((TAB +:+ name +:+ ":") :: map pair_line (fields_str_to_map opt.2))
      | CURLOPT_HTTPHEADER =>
          match header_list_to_map (slist_data (_header conn) conn) with
          | Some ps => Some ((TAB +:+ name +:+ ":") :: map pair_line ps)
          | None => None
          end
      | CURLOPT_WRITEDATA | CURLOPT_WRITEFUNCTION =>
          match stoull opt.2 with
          | Some n => Some [TAB +:+ name +:+ TAB +:+ hex n]
          | None => None
          end
      | _ => Some [TAB +:+ name +:+ TAB +:+ opt.2]
      end
  end.

(** The whole report, line by line.  The container behind
    [get_option_strings()] is declared in the header; its iteration order is
    the parameter [order], and the identifiers of [order] that have an entry
    are visited in that order. *)
Fixpoint operator_shl (order : list CURLoption) (conn : state)
  : option (list string) :=
  match order with
  | [] => Some []
  | o :: r =>
      match _options conn !! o with
      | None => operator_shl r conn
      | Some v =>
          match render_entry conn (o, v), operator_shl r conn with
          | Some a, Some b => Some (a ++ b)
          | _, _ => None
          end
      end
  end.

(** The identifiers in increasing numeric value, the order of a
    [std::map<CURLoption, _>]. *)
Definition by_code : list CURLoption :=
  [ CURLOPT_HEADER; CURLOPT_POST; CURLOPT_SSL_VERIFYPEER; CURLOPT_HTTPGET;
    CURLOPT_SSL_VERIFYHOST; CURLOPT_NOSIGNAL; CURLOPT_TCP_KEEPALIVE;
    CURLOPT_WRITEDATA; CURLOPT_URL; CURLOPT_HTTPHEADER; CURLOPT_CAINFO;
    CURLOPT_CAPATH; CURLOPT_ACCEPT_ENCODING; CURLOPT_COPYPOSTFIELDS;
    CURLOPT_WRITEFUNCTION ].

(** ** [streaming_info.cpp] *)

Inductive tdma_exn : Type :=
  | APIException (what : string)
  | ValueException (what : string)
  | std_invalid_argument (what : string)
  | std_out_of_range (what : string).

Inductive outcome (A : Type) : Type :=
  | Returns (a : A)
  | Raises (e : tdma_exn).
Arguments Returns {A} a.
Arguments Raises {A} e.

Definition outcome_bind {A B} (m : outcome A) (k : A -> outcome B) : outcome B :=
  match m with
  | Returns a => k a
  | Raises e => Raises e
  end.

Notation "'let%' x := m 'in' k" := (outcome_bind m (fun x => k))
  (at level 60, x name, m at next level, right associativity).

(** *** [std::stoi] *)

Definition stoi (str : string) : outcome Z :=
  match strto str with
  | None => Raises (std_invalid_argument "stoi")
  | Some (neg, v) =>
      let v := if (neg : bool) then - v else v in
      if (v <? INT_MIN) || (INT_MAX <? v)
      then Raises (std_out_of_range "stoi")
      else Returns v
  end.

(** *** [struct tm] and [timegm] *)

Record tm : Type := mk_tm {
  tm_sec : Z;
  tm_min : Z;
  tm_hour : Z;
  tm_mday : Z;
  tm_mon : Z;
  tm_year : Z;
  tm_isdst : Z
}.

(** Days from 1970-01-01 to the civil date [y]-[m]-[d], [m] in 1..12. *)
Definition days_from_civil (y m d : Z) : Z :=
  let y := if m <=? 2 then y - 1 else y in
  let era := y / 400 in
  let yoe := y - era * 400 in
  let mp := if 2 <? m then m - 3 else m + 9 in
  let doy := (153 * mp + 2) / 5 + d - 1 in
  let doe := yoe * 365 + yoe / 4 - yoe / 100 + doy in
  era * 146097 + doe - 719468.

(** The C library's [timegm]: seconds since the epoch of a broken-down UTC
    time, with out-of-range fields carried over. *)
Definition timegm (t : tm) : Z :=
  let year := tm_year t + 1900 + tm_mon t / 12 in
  let mon := tm_mon t mod 12 in
  let days := days_from_civil year (mon + 1) 1 + (tm_mday t - 1) in
  days * 86400 + tm_hour t * 3600 + tm_min t * 60 + tm_sec t.

(** Two's-complement [long long]. *)
Definition wrap64 (z : Z) : Z :=
  (z + 2 ^ 63) mod 2 ^ 64 - 2 ^ 63.

Definition invalid_timestamp : tdma_exn :=
  APIException "invalid timestamp from streamerInfo".

Definition timestamp_to_ms (ts : string) : outcome Z :=
  if bool_decide (String.length ts ≠ 24%nat)
     || negb (String.eqb (substring 20 4 ts) "0000")
  then Raises invalid_timestamp
  else
    let% year := stoi (substring 0 4 ts) in
    let% mon := stoi (substring 5 2 ts) in
    let% mday := stoi (substring 8 2 ts) in
    let% hour := stoi (substring 11 2 ts) in
    let% min := stoi (substring 14 2 ts) in
    let% sec := stoi (substring 17 2 ts) in
    let t := mk_tm sec min hour mday (mon - 1) (year - 1900) 0 in
    Returns (wrap64 (timegm t * 1000)).

(** *** [StreamerService] *)

Inductive StreamerService_type : Type :=
  | NONE
  | ADMIN
  | ACTIVES_NASDAQ
  | ACTIVES_NYSE
  | ACTIVES_OTCBB
  | ACTIVES_OPTIONS
  | CHART_EQUITY
  | CHART_FUTURES
  | CHART_OPTIONS
  | QUOTE
  | LEVELONE_FUTURES
  | LEVELONE_FOREX
  | LEVELONE_FUTURES_OPTIONS
  | OPTION
  | NEWS_HEADLINE
  | TIMESALE_EQUITY
  | TIMESALE_FUTURES
  | TIMESALE_OPTIONS.

(** [StreamerService::StreamerService(string service_name)]: the value of
    [_service], or the exception thrown. *)
Definition StreamerService (service_name : string) : outcome StreamerService_type :=
  if String.eqb service_name "NONE" then Returns NONE
  else if String.eqb service_name "ADMIN" then Returns ADMIN
  else if String.eqb service_name "ACTIVES_NASDAQ" then Returns ACTIVES_NASDAQ
  else if String.eqb service_name "ACTIVES_NYSE" then Returns ACTIVES_NYSE
  else if String.eqb service_name "ACTIVES_OTCBB" then Returns ACTIVES_OTCBB
  else if String.eqb service_name "ACTIVES_OPTIONS" then Returns ACTIVES_OPTIONS
  else if String.eqb service_name "CHART_EQUITY" then Returns CHART_EQUITY
  else if String.eqb service_name "CHART_FUTURES" then Returns CHART_FUTURES
  else if String.eqb service_name "CHART_OPTIONS" then Returns CHART_OPTIONS
  else if String.eqb service_name "QUOTE" then Returns QUOTE
  else if String.eqb service_name "LEVELONE_FUTURES" then Returns LEVELONE_FUTURES
  else if String.eqb service_name "LEVELONE_FOREX" then Returns LEVELONE_FOREX
  else if String.eqb service_name "LEVELONE_FUTURES_OPTIONS"
       then Returns LEVELONE_FUTURES_OPTIONS
  else if String.eqb service_name "OPTION" then Returns OPTION
  else if String.eqb service_name "NEWS_HEADLINE" then Returns NEWS_HEADLINE
  else if String.eqb service_name "TIMESALE_EQUITY" then Returns TIMESALE_EQUITY
  else if String.eqb service_name "TIMESALE_FUTURES" then Returns TIMESALE_FUTURES
  else if String.eqb service_name "TIMESALE_OPTIONS" then Returns TIMESALE_OPTIONS
  else Raises (ValueException ("invalid service name: " +:+ service_name)).

(** The service names the constructor compares against, in source order. *)
Definition service_names : list string :=
  [ "NONE"; "ADMIN"; "ACTIVES_NASDAQ"; "ACTIVES_NYSE"; "ACTIVES_OTCBB";
    "ACTIVES_OPTIONS"; "CHART_EQUITY"; "CHART_FUTURES"; "CHART_OPTIONS";
    "QUOTE"; "LEVELONE_FUTURES"; "LEVELONE_FOREX"; "LEVELONE_FUTURES_OPTIONS";
    "OPTION"; "NEWS_HEADLINE"; "TIMESALE_EQUITY"; "TIMESALE_FUTURES";
    "TIMESALE_OPTIONS" ].

(** The positions of a 24-character timestamp that [timestamp_to_ms] steps
    over: the four date and time separators, the [T], and the sign. *)
Definition skipped_positions : list nat := [4; 7; 10; 13; 16; 19]%nat.

(** The string with the characters at the positions [ps] replaced, position
    [i] being that of the first character. *)
Fixpoint overwrite_at (ps : list nat) (f : nat -> ascii) (i : nat) (s : string)
  : string :=
  match s with
  | EmptyString => EmptyString
  | String c r =>
      String (if bool_decide (i ∈ ps) then f i else c)
             (overwrite_at ps f (S i) r)
  end.

(** The enumerators in the order of [service_names]. *)
Definition service_types : list StreamerService_type :=
  [ NONE; ADMIN; ACTIVES_NASDAQ; ACTIVES_NYSE; ACTIVES_OTCBB; ACTIVES_OPTIONS;
    CHART_EQUITY; CHART_FUTURES; CHART_OPTIONS; QUOTE; LEVELONE_FUTURES;
    LEVELONE_FOREX; LEVELONE_FUTURES_OPTIONS; OPTION; NEWS_HEADLINE;
    TIMESALE_EQUITY; TIMESALE_FUTURES; TIMESALE_OPTIONS ].

(** ** Vocabulary of the statements *)

(** The option-setting operations as data, to speak about sequences of
    calls. *)
Inductive op : Type :=
  | OpSET_url (url : string)
  | OpSET_ssl_verify
  | OpSET_ssl_verify_using_ca_bundle (path : string)
  | OpSET_ssl_verify_using_ca_certs (dir : string)
  | OpSET_encoding (enc : string)
  | OpSET_keepalive
  | OpADD_headers (headers : list (string * string))
  | OpSET_fields (fields : list (string * string))
  | OpExecute.

(** The ranges between the occurrences of [c], the last one reaching the
    end of the string. *)
Fixpoint segments (c : ascii) (s : string) : list string :=
  match s with
  | EmptyString => [EmptyString]
  | String a r =>
      if Ascii.eqb a c then EmptyString :: segments c r
      else match segments c r with
           | seg :: segs => String a seg :: segs
           | [] => [String a EmptyString]
           end
  end.

(** Whether the character occurs in the string. *)
Fixpoint contains (c : ascii) (s : string) : bool :=
  match s with
  | EmptyString => false
  | String a r => Ascii.eqb a c || contains c r
  end.

(** The value of the most recent entry of a log for an option. *)
Fixpoint last_set (k : CURLoption) (log : list (CURLoption * param)) : option param :=
  match log with
  | [] => None
  | e :: r =>
      match last_set k r with
      | Some p => Some p
      | None => if bool_decide (e.1 = k) then Some e.2 else None
      end
  end.

(** The node [ADD_headers] stores for a pair. *)
Definition header_node (h : string * string) : string := c_str (header_line h).

(** Keys and values free of both separators. *)
Definition clean_field (f : string * string) : Prop :=
  contains "&" f.1 = false ∧ contains "=" f.1 = false ∧
  contains "&" f.2 = false ∧ contains "=" f.2 = false.



(** The registry mirrors the handle: same identifiers, each with the string
    form of the applied value. *)
Definition mirrors (s : state) : Prop :=
  _options s = to_string <$> easy_opts s.

(** The state after an accepted [set_option]. *)
Definition applied (o : CURLoption) (p : param) (s : state) : state :=
  mk_state (_header s) (_handle s) (<[o := to_string p]> (_options s))
           (<[o := p]> (easy_opts s)) (setopt_log s ++ [(o, p)]) (slists s)
           (last_response s) (performs s) (clock s).

(** The connection-side fields a computation may leave alone. *)
Definition same_options (s s' : state) : Prop :=
  _handle s' = _handle s ∧ _options s' = _options s ∧
  easy_opts s' = easy_opts s ∧ setopt_log s' = setopt_log s.

(** The head the header list has once something was appended to it. *)
Definition head_after (s : state) : positive :=
  match _header s with
  | Some a => a
  | None => fresh (dom (slists s))
  end.

(** The state after [lines] were appended to the header list one by one. *)
Definition headers_added (lines : list string) (s : state) : state :=
  mk_state (Some (head_after s)) (_handle s) (_options s) (easy_opts s)
           (setopt_log s)
           (<[head_after s := slist_data (_header s) s ++ lines]> (slists s))
           (last_response s) (performs s) (clock s).

(** The state in which the loop of [ADD_headers] throws when the entries
    [pre] went in and the next append failed. *)
Definition headers_lost (pre : list string) (s : state) : state :=
  with_header None (match pre with
                    | [] => s
                    | _ => headers_added pre s
                    end).

(** Registry and handle table after the accepted calls of [log], oldest
    first. *)
Definition registry_after (r : gmap CURLoption string)
    (log : list (CURLoption * param)) : gmap CURLoption string :=
  foldl (fun r e => <[e.1 := to_string e.2]> r) r log.

Definition handle_after (h : gmap CURLoption param)
    (log : list (CURLoption * param)) : gmap CURLoption param :=
  foldl (fun h e => <[e.1 := e.2]> h) h log.

(** [s'] is [s] after libcurl accepted the calls [l]. *)
Definition extends_by (l : list (CURLoption * param)) (s s' : state) : Prop :=
  setopt_log s' = setopt_log s ++ l
  ∧ _options s' = registry_after (_options s) l
  ∧ easy_opts s' = handle_after (easy_opts s) l.

Definition extends (s s' : state) : Prop := ∃ l, extends_by l s s'.

(** Computations that change registry and handle only through accepted
    [set_option] calls. *)
Definition tracked {A} (m : M A) : Prop := ∀ s, extends s (m s).1.

(** The calls of the constructors, by part: [CurlConnection], the Secure
    part, and the Get or Post part. *)
Definition base_calls (url : option string) : list (CURLoption * param) :=
  (CURLOPT_NOSIGNAL, PLong 1) ::
  match url with
  | Some u => [(CURLOPT_URL, PStr (c_str u))]
  | None => []
  end.

Definition secure_calls : list (CURLoption * param) :=
  [(CURLOPT_SSL_VERIFYPEER, PLong 1); (CURLOPT_SSL_VERIFYHOST, PLong 2)].

Definition method_calls (method : CURLoption) : list (CURLoption * param) :=
  [(method, PLong 1); (CURLOPT_ACCEPT_ENCODING, PStr "gzip");
   (CURLOPT_TCP_KEEPALIVE, PLong 1)].

(** A libcurl that accepts every option. *)
Definition accept_all : CURLoption → param → bool := fun _ _ => true.

(** A libcurl that rejects the CA bundle path and accepts the rest. *)
Definition reject_cainfo : CURLoption → param → bool :=
  fun o _ => negb (bool_decide (o = CURLOPT_CAINFO)).

(** A libcurl whose [curl_slist_append] fails once a list holds two
    entries. *)
Definition alloc_two : list string → string → bool :=
  fun cur _ => bool_decide (List.length cur < 2)%nat.

Definition alloc_all : list string → string → bool := fun _ _ => true.

(** A server that answers 200 with the body "OK", in two chunks, after
    seven ticks. *)
Definition stub_transfer : gmap CURLoption param → perform_outcome :=
  fun _ => mk_outcome 0 ["O"; "K"] 200 7.

(** A transfer that fails with engine code 7 after three ticks, having
    delivered part of a body. *)
Definition stub_refused : gmap CURLoption param → perform_outcome :=
  fun _ => mk_outcome 7 ["par"; "tial"] 0 3.

(** The world before any connection exists, at clock 100. *)
Definition world0 : state := mk_state None None ∅ ∅ [] ∅ 0 0%nat 100.

(** Keys free of both separators, values free of the pair separator: what
    [fields_str_to_map] can give back. *)
Definition decodable_field (f : string * string) : Prop :=
  contains "&" f.1 = false ∧ contains "=" f.1 = false ∧
  contains "&" f.2 = false.

(** Keys and values without NUL, so that [c_str] keeps them whole. *)
Definition nul_free_field (f : string * string) : Prop :=
  contains Ascii.zero f.1 = false ∧ contains Ascii.zero f.2 = false.

(** A decoded header pair put back together around its colon. *)
Definition join_colon (p : string * string) : string :=
  p.1 +:+ ":" +:+ p.2.

(** The name the [StreamerService] constructor accepts for an enumerator. *)
Definition service_name_of (t : StreamerService_type) : string :=
  match t with
  | NONE => "NONE"
  | ADMIN => "ADMIN"
  | ACTIVES_NASDAQ => "ACTIVES_NASDAQ"
  | ACTIVES_NYSE => "ACTIVES_NYSE"
  | ACTIVES_OTCBB => "ACTIVES_OTCBB"
  | ACTIVES_OPTIONS => "ACTIVES_OPTIONS"
  | CHART_EQUITY => "CHART_EQUITY"
  | CHART_FUTURES => "CHART_FUTURES"
  | CHART_OPTIONS => "CHART_OPTIONS"
  | QUOTE => "QUOTE"
  | LEVELONE_FUTURES => "LEVELONE_FUTURES"
  | LEVELONE_FOREX => "LEVELONE_FOREX"
  | LEVELONE_FUTURES_OPTIONS => "LEVELONE_FUTURES_OPTIONS"
  | OPTION => "OPTION"
  | NEWS_HEADLINE => "NEWS_HEADLINE"
  | TIMESALE_EQUITY => "TIMESALE_EQUITY"
  | TIMESALE_FUTURES => "TIMESALE_FUTURES"
  | TIMESALE_OPTIONS => "TIMESALE_OPTIONS"
  end.

(** The [curl_slist] store once the connection's header list is freed. *)
Definition slists_freed (s : state) : gmap positive (list string) :=
  match _header s with
  | Some a => delete a (slists s)
  | None => slists s
  end.

(** The state [RESET_headers] leaves. *)
Definition headers_reset (s : state) : state :=
  mk_state None (_handle s) (delete CURLOPT_HTTPHEADER (_options s))
           (easy_opts s) (setopt_log s) (slists_freed s)
           (last_response s) (performs s) (clock s).

(** The state [RESET_options] leaves. *)
Definition options_reset (s : state) : state :=
  mk_state None (_handle s) ∅
           (match _handle s with
            | Some _ => ∅
            | None => easy_opts s
            end)
           (setopt_log s) (slists_freed s)
           (last_response s) (performs s) (clock s).


(** A libcurl that rejects the write destination and accepts the rest. *)
Definition reject_writedata : CURLoption → param → bool :=
  fun o _ => negb (bool_decide (o = CURLOPT_WRITEDATA)).

(** ** The connection *)

Section Transport.

(** libcurl's side of the interface. *)
Variable setopt_ok : CURLoption -> param -> bool.
  (* whether [curl_easy_setopt] returns [CURLE_OK] *)
Variable slist_alloc_ok : list string -> string -> bool.
  (* whether [curl_slist_append] to a list with these entries succeeds *)
Variable transfer : gmap CURLoption param -> perform_outcome.
  (* what [curl_easy_perform] does on a handle with these options *)
Variable easy_init : option positive.
  (* the handle [curl_easy_init] returns, or null *)
Variable write_fn : positive.
  (* the address of [WriteCallback::write] *)
Variable cb_addr : positive.
  (* the address of the local [WriteCallback cb] of [execute] *)

(** [curl_easy_setopt]: an accepted option replaces the handle's value for
    that identifier; the result tells whether the code was [CURLE_OK]. *)
Definition curl_easy_setopt (o : CURLoption) (p : param) : M bool :=
  fun s =>
    if setopt_ok o p
    then (with_setopt_log (setopt_log s ++ [(o, p)])
            (with_easy_opts (<[o := p]> (easy_opts s)) s), Ok true)
    else (s, Ok false).

(** [curl_slist_append]: a null list starts a new one at a fresh address; a
    live list grows in place and keeps its head; null on failure. *)
Definition curl_slist_append (l : option positive) (data : string)
  : M (option positive) :=
  fun s =>
    let cur := slist_data l s in
    if slist_alloc_ok cur data then
      let a := match l with
               | Some a => a
               | None => fresh (dom (slists s))
               end in
      (with_slists (<[a := cur ++ [data]]> (slists s)) s, Ok (Some a))
    else (s, Ok None).

Definition curl_slist_free_all (l : option positive) : M unit :=
  modify (fun s => match l with
                   | Some a => with_slists (delete a (slists s)) s
                   | None => s
                   end).

(** [curl_easy_reset] puts every option of the handle back to its default;
    [curl_easy_cleanup] ends the handle, and its options with it. *)
Definition curl_easy_reset : M unit := modify (with_easy_opts ∅).
Definition curl_easy_cleanup : M unit := modify (with_easy_opts ∅).

Definition sink_bound (s : state) : bool :=
  bool_decide (easy_opts s !! CURLOPT_WRITEFUNCTION = Some (PPtr (Some write_fn)))
  && bool_decide (easy_opts s !! CURLOPT_WRITEDATA = Some (PPtr (Some cb_addr))).

(** [curl_easy_perform]: one transfer.  The chunks reach [cb] only when the
    handle's write function and write destination are the ones [execute]
    installs. *)
Definition curl_easy_perform (cb : string) : M (Z * string) :=
  fun s =>
    let out := transfer (easy_opts s) in
    let cb' := if sink_bound s
               then foldl (fun buf ch => (WriteCallback_write ch buf).1) cb (chunks out)
               else cb in
    (mk_state (_header s) (_handle s) (_options s) (easy_opts s)
              (setopt_log s) (slists s)
              (response_code out) (S (performs s))
              (clock s + Z.of_N (elapsed out)),
     Ok (ccode out, cb')).

Definition curl_easy_getinfo_response_code : M Z :=
  fun s => (s, Ok (last_response s)).

Definition clock_now : M Z := fun s => (s, Ok (clock s)).

(** Modelled from the spec: [CurlConnection::set_option] is a template of
    the header [curl_connect.h].  It "validates the connection is open
    (else fails with a closed-connection error), applies the option to the
    native handle, and only on success records/overwrites the corresponding
    Option Registry entry"; a failed apply raises "a malformed-option error
    carrying the option identifier and the attempted string value". *)
Definition set_option (o : CURLoption) (p : param) : M unit :=
  do s <- get;
  match _handle s with
  | None => throw (CurlException closed_msg)
  | Some _ =>
      do ok <- curl_easy_setopt o p;
      if (ok : bool)
      then modify (fun s => with_options (<[o := to_string p]> (_options s)) s)
      else throw (CurlOptionException2 o (to_string p))
  end.

(** Modelled from the spec: [is_closed] of the header, "the handle is
    null". *)
Definition is_closed (s : state) : bool := bool_decide (_handle s = None).

Definition SET_url (url : string) : M unit :=
  set_option CURLOPT_URL (PStr (c_str url)).

Definition SET_ssl_verify : M unit :=
  call set_option CURLOPT_SSL_VERIFYPEER (PLong 1);
  set_option CURLOPT_SSL_VERIFYHOST (PLong 2).

Definition SET_ssl_verify_using_ca_bundle (path : string) : M unit :=
  call SET_ssl_verify;
  set_option CURLOPT_CAINFO (PStr (c_str path)).

Definition SET_ssl_verify_using_ca_certs (dir : string) : M unit :=
  call SET_ssl_verify;
  set_option CURLOPT_CAPATH (PStr (c_str dir)).

Definition SET_encoding (enc : string) : M unit :=
  set_option CURLOPT_ACCEPT_ENCODING (PStr (c_str enc)).

Definition SET_keepalive : M unit :=
  set_option CURLOPT_TCP_KEEPALIVE (PLong 1).

(** One round of the loop of [ADD_headers]. *)
Definition ADD_headers_body (h : string * string) : M unit :=
  let s := header_line h in
  do hd <- get;
  do r <- curl_slist_append (_header hd) (c_str s);
  call modify (with_header r);
  match r with
  | None => throw (CurlOptionException
                     "curl_slist_append failed trying to add header"
                     CURLOPT_HEADER s)
  | Some _ => ret tt
  end.

Definition ADD_headers (headers : list (string * string)) : M unit :=
  do s <- get;
  match _handle s with
  | None => throw (CurlException closed_msg)
  | Some _ =>
      match headers with
      | [] => ret tt
      | _ =>
          call for_each ADD_headers_body headers;
          do s' <- get;
          set_option CURLOPT_HTTPHEADER (PPtr (_header s'))
      end
  end.

Definition RESET_headers : M unit :=
  do s <- get;
  call curl_slist_free_all (_header s);
  call modify (with_header None);
  modify (fun s => with_options (delete CURLOPT_HTTPHEADER (_options s)) s).

Definition RESET_options : M unit :=
  call RESET_headers;
  do s <- get;
  call (match _handle s with
        | Some _ => curl_easy_reset
        | None => ret tt
        end);
  modify (with_options ∅).

Definition close : M unit :=
  do s <- get;
  call (match _header s with
        | Some _ =>
            call curl_slist_free_all (_header s);
            modify (with_header None)
        | None => ret tt
        end);
  call (match _handle s with
        | Some _ =>
            call curl_easy_cleanup;
            modify (with_handle None)
        | None => ret tt
        end);
  modify (with_options ∅).


Definition execute : M (Z * string * Z) :=
  do s <- get;
  match _handle s with
  | None => throw (CurlException closed_msg)
  | Some _ =>
      let cb := EmptyString in
      call set_option CURLOPT_WRITEFUNCTION (PPtr (Some write_fn));
      call set_option CURLOPT_WRITEDATA (PPtr (Some cb_addr));
      do r <- curl_easy_perform cb;
      do tp <- clock_now;
      if bool_decide (r.1 ≠ 0) then throw (CurlConnectionError1 r.1)
      else
        let res := r.2 in
        do c <- curl_easy_getinfo_response_code;
        ret (c, res, tp)
  end.

(** *** Constructors *)

(** The member initialisers of [CurlConnection()]. *)
Definition CurlConnection_members (w : state) : state :=
  mk_state None easy_init ∅ ∅ [] (slists w)
           (last_response w) (performs w) (clock w).

Definition CurlConnection0 : M unit :=
  call modify CurlConnection_members;
  set_option CURLOPT_NOSIGNAL (PLong 1).

Definition CurlConnection1 (url : string) : M unit :=
  call CurlConnection0;
  SET_url url.

Definition DEFAULT_ENCODING : string := "gzip".

Definition HTTPSConnection0 : M unit :=
  call CurlConnection0;
  SET_ssl_verify.

Definition HTTPSConnection1 (url : string) : M unit :=
  call CurlConnection1 url;
  SET_ssl_verify.

Definition HTTPSGetConnection0 : M unit :=
  call HTTPSConnection0;
  call set_option CURLOPT_HTTPGET (PLong 1);
  call SET_encoding DEFAULT_ENCODING;
  SET_keepalive.

Definition HTTPSGetConnection1 (url : string) : M unit :=
  call HTTPSConnection1 url;
  call set_option CURLOPT_HTTPGET (PLong 1);
  call SET_encoding DEFAULT_ENCODING;
  SET_keepalive.

Definition HTTPSPostConnection0 : M unit :=
  call HTTPSConnection0;
  call set_option CURLOPT_POST (PLong 1);
  call SET_encoding DEFAULT_ENCODING;
  SET_keepalive.

Definition HTTPSPostConnection1 (url : string) : M unit :=
  call HTTPSConnection1 url;
  call set_option CURLOPT_POST (PLong 1);
  call SET_encoding DEFAULT_ENCODING;
  SET_keepalive.

Definition SET_fields (fields : list (string * string)) : M unit :=
  do st <- get;
  if is_closed st then throw (CurlException closed_msg)
  else
    match fields with
    | [] => ret tt
    | _ =>
        let s := fields_wire fields in
        set_option CURLOPT_COPYPOSTFIELDS (PStr (c_str s))
    end.

(** [header_list_to_map(connection._header)], as the renderer calls it. *)
Definition rendered_headers (s : state) : option (list (string * string)) :=
  header_list_to_map (slist_data (_header s) s).

Definition run_op (o : op) : M unit :=
  match o with
  | OpSET_url url => SET_url url
  | OpSET_ssl_verify => SET_ssl_verify
  | OpSET_ssl_verify_using_ca_bundle path => SET_ssl_verify_using_ca_bundle path
  | OpSET_ssl_verify_using_ca_certs dir => SET_ssl_verify_using_ca_certs dir
  | OpSET_encoding enc => SET_encoding enc
  | OpSET_keepalive => SET_keepalive
  | OpADD_headers headers => ADD_headers headers
  | OpSET_fields fields => SET_fields fields
  | OpExecute => do _ <- execute; ret tt
  end.

Definition run_ops (os : list op) : M unit := for_each run_op os.

(** The [set_option] calls an operation makes when it starts in [s] and
    returns normally. *)
Definition op_calls (o : op) (s : state) : list (CURLoption * param) :=
  match o with
  | OpSET_url url => [(CURLOPT_URL, PStr (c_str url))]
  | OpSET_ssl_verify => secure_calls
  | OpSET_ssl_verify_using_ca_bundle path =>
      secure_calls ++ [(CURLOPT_CAINFO, PStr (c_str path))]
  | OpSET_ssl_verify_using_ca_certs dir =>
      secure_calls ++ [(CURLOPT_CAPATH, PStr (c_str dir))]
  | OpSET_encoding enc => [(CURLOPT_ACCEPT_ENCODING, PStr (c_str enc))]
  | OpSET_keepalive => [(CURLOPT_TCP_KEEPALIVE, PLong 1)]
  | OpADD_headers [] => []
  | OpADD_headers (_ :: _) => [(CURLOPT_HTTPHEADER, PPtr (Some (head_after s)))]
  | OpSET_fields [] => []
  | OpSET_fields (f :: r) =>
      [(CURLOPT_COPYPOSTFIELDS, PStr (c_str (fields_wire (f :: r))))]
  | OpExecute =>
      [(CURLOPT_WRITEFUNCTION, PPtr (Some write_fn));
       (CURLOPT_WRITEDATA, PPtr (Some cb_addr))]
  end.

(** Whether libcurl accepts each of the lines in turn, starting from a
    list that holds [cur]. *)
Fixpoint appends_ok (cur : list string) (lines : list string) : bool :=
  match lines with
  | [] => true
  | l :: r => slist_alloc_ok cur l && appends_ok (cur ++ [l]) r
  end.

(** The state of a connection constructed in the world [w] whose
    constructor made the accepted calls [calls]. *)
Definition constructed (calls : list (CURLoption * param)) (w : state) : state :=
  foldl (fun s e => applied e.1 e.2 s) (CurlConnection_members w) calls.

(** ** Facts about the string helpers *)

Lemma append_nil_r (s : string) : s +:+ "" = s.
Proof. induction s as [|a s IH]; simpl; [done | by rewrite IH]. Qed.

Lemma append_assoc (a b c : string) : (a +:+ b) +:+ c = a +:+ (b +:+ c).
Proof. induction a as [|x a IH]; simpl; [done | by rewrite IH]. Qed.

Lemma erase_last_app (a : string) (c : ascii) (b : string) :
  erase_last (a +:+ String c b) = a +:+ erase_last (String c b).
Proof.
  induction a as [|x a IH]; [done|].
  change (String x a +:+ String c b) with (String x (a +:+ String c b)).
  cbn [erase_last]. rewrite IH.
  destruct (a +:+ String c b) eqn:E; [by destruct a|done].
Qed.

Lemma fields_wire_cons (f : string * string) (r : list (string * string)) :
  fields_wire (f :: r) =
    match r with
    | [] => f.1 +:+ "=" +:+ f.2
    | _ => f.1 +:+ "=" +:+ f.2 +:+ "&" +:+ fields_wire r
    end.
Proof.
  unfold fields_wire. cbn [fields_stream].
  rewrite bool_decide_eq_false_2; [|by destruct (f.1)].
  change (f.1 +:+ "=" +:+ f.2 +:+ "&" +:+ fields_stream r)
    with (f.1 +:+ String "=" (f.2 +:+ String "&" (fields_stream r))).
  rewrite erase_last_app.
  change (String "=" (f.2 +:+ String "&" (fields_stream r)))
    with ((String "=" f.2) +:+ String "&" (fields_stream r)).
  rewrite erase_last_app.
  destruct r as [|g r].
  - simpl. by rewrite append_nil_r.
  - rewrite bool_decide_eq_false_2; [|by cbn; destruct (g.1)].
    cbn [fields_stream].
    set (t := g.1 +:+ "=" +:+ g.2 +:+ "&" +:+ fields_stream r).
    assert (t ≠ "") as Ht by (subst t; by destruct (g.1)).
    destruct t as [|x t]; [done|]. done.
Qed.

Lemma fields_stream_wire (fields : list (string * string)) :
  fields ≠ [] → fields_stream fields = fields_wire fields +:+ "&".
Proof.
  induction fields as [|f r IH]; [done|]. intros _.
  rewrite fields_wire_cons.
  change (fields_stream (f :: r))
    with (f.1 +:+ "=" +:+ f.2 +:+ "&" +:+ fields_stream r).
  destruct r as [|g r].
  - cbn [fields_stream]. by rewrite !append_assoc.
  - rewrite IH by done. by rewrite !append_assoc.
Qed.

Lemma fields_wire_concat (fields : list (string * string)) :
  fields ≠ [] →
  fields_wire fields =
    String.concat "&" (map (fun f => f.1 +:+ "=" +:+ f.2) fields).
Proof.
  induction fields as [|f r IH]; [done|]. intros _.
  rewrite fields_wire_cons. destruct r as [|g r]; [done|].
  rewrite IH by done. cbn [map String.concat].
  by rewrite !append_assoc.
Qed.

Lemma split_first_app (c : ascii) (k v : string) :
  contains c k = false →
  split_first c (k +:+ String c v) = Some (k, v).
Proof.
  induction k as [|a k IH]; cbn.
  - intros _. by rewrite Ascii.eqb_refl.
  - intros [Ha Hk]%orb_false_elim. rewrite Ha. by rewrite IH.
Qed.

Lemma segments_find_first_of (c : ascii) (b : string) :
  segments c b =
    match find_first_of c b with
    | (s, None) => [s]
    | (s, Some b') => s :: segments c b'
    end.
Proof.
  induction b as [|a r IH]; cbn [segments find_first_of]; [done|].
  destruct (Ascii.eqb a c); [done|].
  rewrite IH. by destruct (find_first_of c r) as [s [b'|]].
Qed.

Lemma find_first_of_shorter (c : ascii) (b s b' : string) :
  find_first_of c b = (s, Some b') →
  (String.length b' < String.length b)%nat.
Proof.
  revert s. induction b as [|a r IH]; intros s; cbn [find_first_of]; [done|].
  destruct (Ascii.eqb a c).
  - intros [= _ <-]. cbn. lia.
  - destruct (find_first_of c r) as [s0 e]. intros [= _ ->].
    specialize (IH s0 eq_refl). cbn. lia.
Qed.

Lemma fields_loop_segments (fuel : nat) (b : string) :
  (String.length b < fuel)%nat →
  fields_loop fuel b = flat_map field_of_segment (segments "&" b).
Proof.
  revert b. induction fuel as [|fuel IH]; intros b Hlen; [lia|].
  cbn [fields_loop]. rewrite segments_find_first_of.
  destruct (find_first_of "&" b) as [s [b'|]] eqn:E.
  - cbn [flat_map]. rewrite IH; [done|].
    apply find_first_of_shorter in E. lia.
  - cbn [flat_map]. done.
Qed.

Lemma fields_str_to_map_segments (fstr : string) :
  fields_str_to_map fstr = flat_map field_of_segment (segments "&" fstr).
Proof. unfold fields_str_to_map. apply fields_loop_segments. lia. Qed.

Lemma segments_no_sep (c : ascii) (s : string) :
  contains c s = false → segments c s = [s].
Proof.
  induction s as [|a s IH]; cbn; [done|].
  intros [Ha Hs]%orb_false_elim. rewrite Ha. by rewrite IH.
Qed.

Lemma segments_app (c : ascii) (a b : string) :
  contains c a = false →
  segments c (a +:+ String c b) = a :: segments c b.
Proof.
  induction a as [|x a IH]; cbn.
  - intros _. by rewrite Ascii.eqb_refl.
  - intros [Hx Ha]%orb_false_elim. rewrite Hx. by rewrite IH.
Qed.

Lemma contains_app (c : ascii) (a b : string) :
  contains c (a +:+ b) = contains c a || contains c b.
Proof.
  induction a as [|x a IH]; cbn; [done|]. rewrite IH. by rewrite orb_assoc.
Qed.

Lemma field_of_segment_pair (k v : string) :
  contains "=" k = false →
  field_of_segment (k +:+ "=" +:+ v) = [(k, v)].
Proof.
  intros Hk. unfold field_of_segment.
  rewrite bool_decide_eq_false_2; [|by destruct k].
  change (k +:+ "=" +:+ v) with (k +:+ String "=" v).
  by rewrite split_first_app.
Qed.

Lemma fields_roundtrip (fields : list (string * string)) :
  fields ≠ [] →
  Forall clean_field fields →
  fields_str_to_map (fields_wire fields) = fields.
Proof.
  rewrite fields_str_to_map_segments.
  induction fields as [|[k v] r IH]; [done|].
  intros _ Hall. apply Forall_cons in Hall as [(Hk1 & Hk2 & Hv1 & Hv2) Hr].
  cbn [fst snd] in *.
  rewrite fields_wire_cons. cbn [fst snd].
  assert (contains "&" (k +:+ "=" +:+ v) = false) as Hkv.
  { rewrite !contains_app, Hk1, Hv1. done. }
  destruct r as [|g r].
  - rewrite segments_no_sep by done. cbn [flat_map].
    rewrite field_of_segment_pair by done. done.
  - replace (k +:+ "=" +:+ v +:+ "&" +:+ fields_wire (g :: r))
      with ((k +:+ "=" +:+ v) +:+ String "&" (fields_wire (g :: r)))
      by (by rewrite !append_assoc).
    rewrite segments_app by done. cbn [flat_map].
    rewrite field_of_segment_pair by done.
    rewrite IH by done. done.
Qed.

Lemma c_str_id (s : string) : contains Ascii.zero s = false → c_str s = s.
Proof.
  induction s as [|a s IH]; cbn; [done|].
  intros [Ha Hs]%orb_false_elim. rewrite Ha. by rewrite IH.
Qed.


Lemma contains_fields_wire_nul (fields : list (string * string)) :
  Forall nul_free_field fields →
  contains Ascii.zero (fields_wire fields) = false.
Proof.
  induction 1 as [|f r [Hk Hv] _ IH]; [done|].
  rewrite fields_wire_cons. destruct r as [|g r].
  - rewrite !contains_app, Hk, Hv. done.
  - rewrite !contains_app, Hk, Hv, IH. done.
Qed.




Lemma foldl_write_concat (buf : string) (l : list string) :
  foldl (fun b ch => (WriteCallback_write ch b).1) buf l
  = buf +:+ String.concat "" l.
Proof.
  revert buf. induction l as [|x l IH]; intros buf; cbn [foldl].
  - by rewrite append_nil_r.
  - rewrite IH. unfold WriteCallback_write. cbn [fst].
    rewrite append_assoc. f_equal.
    destruct l as [|y l]; cbn [String.concat]; [by rewrite append_nil_r|done].
Qed.

Lemma by_code_increasing :
  StronglySorted Z.lt (map CURLoption_code by_code)
  ∧ ∀ o : CURLoption, o ∈ by_code.
Proof.
  split.
  - repeat (constructor; [|repeat constructor; done]). constructor.
  - intros o. destruct o; compute_done.
Qed.

(** ** Facts about the monad and the primitives *)

Lemma set_option_eq (o : CURLoption) (p : param) (s : state) :
  set_option o p s =
    match _handle s with
    | None => (s, Throw (CurlException closed_msg))
    | Some _ =>
        if setopt_ok o p then (applied o p s, Ok tt)
        else (s, Throw (CurlOptionException2 o (to_string p)))
    end.
Proof.
  unfold set_option, bind, get, curl_easy_setopt, modify, throw.
  destruct (_handle s); [|done]. by destruct (setopt_ok o p).
Qed.

Lemma bind_eq {A B} (m : M A) (k : A → M B) (s : state) :
  bind m k s = match m s with
               | (s', Ok a) => k a s'
               | (s', Throw e) => (s', Throw e)
               end.
Proof. done. Qed.

Lemma ADD_headers_body_same (h : string * string) (s : state) :
  same_options s (ADD_headers_body h s).1.
Proof.
  unfold ADD_headers_body, bind, get, curl_slist_append, modify, throw, ret.
  destruct (slist_alloc_ok _ _); done.
Qed.

Lemma for_each_ADD_headers_same (hs : list (string * string)) (s : state) :
  same_options s (for_each ADD_headers_body hs s).1.
Proof.
  revert s. induction hs as [|h hs IH]; intros s; [done|].
  cbn [for_each]. rewrite bind_eq.
  pose proof (ADD_headers_body_same h s) as Hb.
  destruct (ADD_headers_body h s) as [s1 [[]|e]]; [|done].
  specialize (IH s1). cbn [fst] in Hb.
  destruct Hb as (?&?&?&?), IH as (?&?&?&?).
  repeat split; congruence.
Qed.

Lemma slist_data_headers_added (lines : list string) (s : state) :
  slist_data (_header (headers_added lines s)) (headers_added lines s)
  = slist_data (_header s) s ++ lines.
Proof. cbn. by rewrite lookup_insert_eq. Qed.

Lemma headers_added_cons (l : string) (ls : list string) (s : state) :
  headers_added ls (headers_added [l] s) = headers_added (l :: ls) s.
Proof.
  unfold headers_added at 1. rewrite slist_data_headers_added.
  cbn. unfold headers_added. f_equal.
  rewrite insert_insert_eq. by rewrite <- app_assoc.
Qed.

Lemma ADD_headers_body_ok (h : string * string) (s : state) :
  slist_alloc_ok (slist_data (_header s) s) (header_node h) = true →
  ADD_headers_body h s = (headers_added [header_node h] s, Ok tt).
Proof.
  intros Hok.
  unfold ADD_headers_body, bind, get, curl_slist_append, modify, ret.
  fold (header_node h). rewrite Hok. cbn.
  unfold headers_added, head_after. by destruct (_header s).
Qed.

Lemma ADD_headers_body_fails (h : string * string) (s : state) :
  slist_alloc_ok (slist_data (_header s) s) (header_node h) = false →
  ADD_headers_body h s =
    (with_header None s,
     Throw (CurlOptionException "curl_slist_append failed trying to add header"
                                CURLOPT_HEADER (header_line h))).
Proof.
  intros Hok.
  unfold ADD_headers_body, bind, get, curl_slist_append, modify, throw.
  fold (header_node h). by rewrite Hok.
Qed.

Lemma ADD_headers_loop_ok (h : string * string) (hs : list (string * string))
    (s : state) :
  appends_ok (slist_data (_header s) s) (map header_node (h :: hs)) = true →
  for_each ADD_headers_body (h :: hs) s
  = (headers_added (map header_node (h :: hs)) s, Ok tt).
Proof.
  revert h s. induction hs as [|g hs IH]; intros h s Hok;
    cbn [map appends_ok] in Hok; apply andb_prop in Hok as [Hh Hr].
  - cbn [for_each]. rewrite bind_eq, ADD_headers_body_ok by done. done.
  - change (for_each ADD_headers_body (h :: g :: hs))
      with (bind (ADD_headers_body h) (fun _ => for_each ADD_headers_body (g :: hs))).
    rewrite bind_eq, ADD_headers_body_ok by done.
    rewrite IH by (by rewrite slist_data_headers_added).
    by rewrite headers_added_cons.
Qed.

Lemma ADD_headers_loop_fails (pre : list (string * string)) (h : string * string)
    (post : list (string * string)) (s : state) :
  appends_ok (slist_data (_header s) s) (map header_node pre) = true →
  slist_alloc_ok (slist_data (_header s) s ++ map header_node pre)
                 (header_node h) = false →
  for_each ADD_headers_body (pre ++ h :: post) s
  = (headers_lost (map header_node pre) s,
     Throw (CurlOptionException "curl_slist_append failed trying to add header"
                                CURLOPT_HEADER (header_line h))).
Proof.
  revert s. induction pre as [|p pre IH]; intros s Hpre Hh.
  - cbn [app for_each map] in *. rewrite app_nil_r in Hh.
    rewrite bind_eq, ADD_headers_body_fails by done. done.
  - cbn [map appends_ok] in Hpre. apply andb_prop in Hpre as [Hp Hpre].
    change (for_each ADD_headers_body ((p :: pre) ++ h :: post))
      with (bind (ADD_headers_body p)
                 (fun _ => for_each ADD_headers_body (pre ++ h :: post))).
    rewrite bind_eq, ADD_headers_body_ok by done.
    rewrite IH.
    + unfold headers_lost. cbn [map]. f_equal. f_equal.
      destruct pre as [|q pre]; [done|].
      cbn [map]. by rewrite headers_added_cons.
    + by rewrite slist_data_headers_added.
    + rewrite slist_data_headers_added. cbn [map] in Hh.
      by rewrite <- app_assoc.
Qed.

Lemma ADD_headers_loop_returns (h : string * string)
    (hs : list (string * string)) (s s1 : state) :
  for_each ADD_headers_body (h :: hs) s = (s1, Ok tt) →
  s1 = headers_added (map header_node (h :: hs)) s.
Proof.
  revert h s. induction hs as [|g hs IH]; intros h s;
    change (for_each ADD_headers_body (h :: ?l))
      with (bind (ADD_headers_body h) (fun _ => for_each ADD_headers_body l));
    rewrite bind_eq;
    (destruct (slist_alloc_ok (slist_data (_header s) s) (header_node h)) eqn:E;
     [rewrite ADD_headers_body_ok by done
     |rewrite ADD_headers_body_fails by done; done]).
  - cbn [for_each ret]. by intros [= <-].
  - intros H%IH. by rewrite H, headers_added_cons.
Qed.

Lemma ADD_headers_cons_eq (h : string * string) (hs : list (string * string))
    (s : state) (hd : positive) :
  _handle s = Some hd →
  ADD_headers (h :: hs) s =
    match for_each ADD_headers_body (h :: hs) s with
    | (s1, Ok _) => set_option CURLOPT_HTTPHEADER (PPtr (_header s1)) s1
    | (s1, Throw e) => (s1, Throw e)
    end.
Proof.
  intros Hh. unfold ADD_headers. rewrite bind_eq. unfold get at 1.
  rewrite Hh. rewrite bind_eq.
  destruct (for_each ADD_headers_body (h :: hs) s) as [s1 [[]|e]]; done.
Qed.

(** ** The claims about the connection *)

(** C8. [ADD_headers] is not atomic.  When the entries of [pre] were
    appended and the append of the next pair [h] fails, the call throws the
    option exception for [h]; the connection's [_header] is then null, no
    option was applied to the handle and the registry is as before the call,
    while the entries of [pre] are still in libcurl's list.  If the header
    option was applied earlier, the handle and the registry still name the
    old head, whose list has grown by [pre], and the connection's pointer no
    longer does. *)
Theorem ADD_headers_not_atomic
    (pre : list (string * string)) (h : string * string)
    (post : list (string * string)) (s : state) (hd : positive) :
  _handle s = Some hd →
  appends_ok (slist_data (_header s) s) (map header_node pre) = true →
  slist_alloc_ok (slist_data (_header s) s ++ map header_node pre)
                 (header_node h) = false →
  let s' := headers_lost (map header_node pre) s in
  ADD_headers (pre ++ h :: post) s
    = (s', Throw (CurlOptionException
                    "curl_slist_append failed trying to add header"
                    CURLOPT_HEADER (header_line h)))
  ∧ _header s' = None
  ∧ easy_opts s' = easy_opts s
  ∧ setopt_log s' = setopt_log s
  ∧ _options s' = _options s
  ∧ (pre ≠ [] →
     slists s' !! head_after s
       = Some (slist_data (_header s) s ++ map header_node pre))
  ∧ (∀ a, _header s = Some a →
          easy_opts s !! CURLOPT_HTTPHEADER = Some (PPtr (Some a)) →
          _options s !! CURLOPT_HTTPHEADER = Some (to_string (PPtr (Some a))) →
          pre ≠ [] →
          easy_opts s' !! CURLOPT_HTTPHEADER = Some (PPtr (Some a))
          ∧ _options s' !! CURLOPT_HTTPHEADER = Some (to_string (PPtr (Some a)))
          ∧ PPtr (_header s') ≠ PPtr (Some a)
          ∧ slist_data (Some a) s'
              = slist_data (Some a) s ++ map header_node pre).
Proof.
  intros Hh Hpre Hfail s'.
  assert (ADD_headers (pre ++ h :: post) s
          = (s', Throw (CurlOptionException
                          "curl_slist_append failed trying to add header"
                          CURLOPT_HEADER (header_line h)))) as Hrun.
  { destruct (pre ++ h :: post) as [|x l] eqn:E; [by destruct pre|].
    rewrite (ADD_headers_cons_eq _ _ _ hd Hh), <- E.
    by rewrite ADD_headers_loop_fails. }
  split; [done|].
  assert (∀ (A : Type) (f : state → A),
            (∀ l, f (headers_added l s) = f s) →
            (∀ t, f (with_header None t) = f t) → f s' = f s) as Hsame.
  { intros A f H1 H2. subst s'. unfold headers_lost. rewrite H2.
    destruct (map header_node pre); [done|apply H1]. }
  split; [done|]. split; [by apply Hsame|]. split; [by apply Hsame|].
  split; [by apply Hsame|].
  assert (pre ≠ [] →
          slists s' !! head_after s
            = Some (slist_data (_header s) s ++ map header_node pre)) as Hlive.
  { intros Hne. subst s'. unfold headers_lost.
    destruct pre as [|p pre]; [done|]. cbn [map].
    cbn. by rewrite lookup_insert_eq. }
  split; [done|].
  intros a Ha He Ho Hne.
  split; [by rewrite (Hsame _ (fun t => easy_opts t !! CURLOPT_HTTPHEADER))|].
  split; [by rewrite (Hsame _ (fun t => _options t !! CURLOPT_HTTPHEADER))|].
  split; [done|].
  specialize (Hlive Hne). unfold head_after in Hlive. rewrite Ha in Hlive.
  cbn [slist_data]. by rewrite Hlive.
Qed.


(** C5, as the code has it.  On an open connection, for a non-empty field
    list whose keys and values contain neither separator and no NUL,
    [SET_fields] builds the string "key1=value1&key2=value2&..." without a
    trailing separator and hands the engine exactly that string: when
    libcurl accepts it, handle and registry hold it, and
    [fields_str_to_map] decodes it to the original pairs in the original
    order.  For an empty list it returns without touching the
    connection. *)
Theorem SET_fields_roundtrip
    (fields : list (string * string)) (s : state) (hd : positive) :
  _handle s = Some hd →
  Forall clean_field fields →
  Forall nul_free_field fields →
  match fields with
  | [] => SET_fields fields s = (s, Ok tt)
  | _ :: _ =>
      let w := String.concat "&" (map (fun f => f.1 +:+ "=" +:+ f.2) fields) in
      let s' := applied CURLOPT_COPYPOSTFIELDS (PStr w) s in
      fields_wire fields = w
      ∧ fields_stream fields = w +:+ "&"
      ∧ c_str w = w
      ∧ fields_str_to_map w = fields
      ∧ SET_fields fields s
          = (if setopt_ok CURLOPT_COPYPOSTFIELDS (PStr w)
             then (s', Ok tt)
             else (s, Throw (CurlOptionException2 CURLOPT_COPYPOSTFIELDS w)))
      ∧ _options s' !! CURLOPT_COPYPOSTFIELDS = Some w
      ∧ easy_opts s' !! CURLOPT_COPYPOSTFIELDS = Some (PStr w)
      ∧ (fields_str_to_map <$> _options s' !! CURLOPT_COPYPOSTFIELDS)
          = Some fields
  end.
Proof.
  intros Hh Hclean Hnul. destruct fields as [|f r].
  - unfold SET_fields, bind, get, is_closed, ret. by rewrite Hh.
  - cbn zeta. rewrite <- fields_wire_concat by done.
    assert (c_str (fields_wire (f :: r)) = fields_wire (f :: r)) as Hc
      by (by apply c_str_id, contains_fields_wire_nul).
    assert (fields_str_to_map (fields_wire (f :: r)) = f :: r) as Hrt
      by (by apply fields_roundtrip).
    split; [done|]. split; [by apply fields_stream_wire|].
    split; [exact Hc|]. split; [exact Hrt|]. split.
    { unfold SET_fields, bind, get, is_closed. rewrite Hh.
      rewrite bool_decide_eq_false_2 by done.
      by rewrite Hc, set_option_eq, Hh. }
    cbn [applied _options easy_opts]. rewrite !lookup_insert_eq.
    split; [done|]. split; [done|]. exact (f_equal Some Hrt).
Qed.

Lemma set_option_accept (o : CURLoption) (p : param) (s : state) (hd : positive) :
  _handle s = Some hd →
  setopt_ok o p = true →
  set_option o p s = (applied o p s, Ok tt).
Proof. intros Hh Hok. by rewrite set_option_eq, Hh, Hok. Qed.



(** C3.  On an open connection on which libcurl accepts the two write
    bindings, [execute] registers them, performs exactly one transfer with an
    empty sink and reads the clock when the transfer returns.  A non-zero
    engine code is thrown as the [CurlConnectionError] whose [code] is that
    code (and whose message quotes it), with no result, whatever the sink
    received; otherwise the result is the engine's response code, whatever
    its value, the chunks of this transfer in order, and that clock
    reading. *)
Theorem execute_protocol (s : state) (hd : positive) :
  _handle s = Some hd →
  setopt_ok CURLOPT_WRITEFUNCTION (PPtr (Some write_fn)) = true →
  setopt_ok CURLOPT_WRITEDATA (PPtr (Some cb_addr)) = true →
  let s1 := applied CURLOPT_WRITEDATA (PPtr (Some cb_addr))
              (applied CURLOPT_WRITEFUNCTION (PPtr (Some write_fn)) s) in
  let out := transfer (easy_opts s1) in
  let tp := clock s + Z.of_N (elapsed out) in
  ∃ s',
    execute s =
      (s', if bool_decide (ccode out = 0)
           then Ok (response_code out, String.concat "" (chunks out), tp)
           else Throw (CurlConnectionError
                         ("connection error (" +:+ pretty (ccode out) +:+ ")")
                         (ccode out)))
    ∧ performs s' = S (performs s)
    ∧ clock s' = tp
    ∧ _handle s' = Some hd
    ∧ _options s' = _options s1
    ∧ easy_opts s' = easy_opts s1
    ∧ _options s' !! CURLOPT_WRITEFUNCTION = Some (to_string (PPtr (Some write_fn)))
    ∧ _options s' !! CURLOPT_WRITEDATA = Some (to_string (PPtr (Some cb_addr))).
Proof.
  intros Hh Hf Hd s1 out tp.
  assert (sink_bound s1 = true) as Hbound.
  { unfold sink_bound. subst s1. cbn [easy_opts applied].
    rewrite lookup_insert_eq, lookup_insert_ne, lookup_insert_eq by done.
    by rewrite !bool_decide_eq_true_2. }
  exists (mk_state (_header s1) (_handle s1) (_options s1) (easy_opts s1)
                   (setopt_log s1) (slists s1) (response_code out)
                   (S (performs s1)) (clock s1 + Z.of_N (elapsed out))).
  split.
  - unfold execute. rewrite bind_eq. unfold get at 1. rewrite Hh.
    rewrite bind_eq, (set_option_accept _ _ _ hd) by done.
    rewrite bind_eq, (set_option_accept _ _ _ hd) by done.
    fold s1. rewrite bind_eq. unfold curl_easy_perform. rewrite Hbound.
    fold out. rewrite foldl_write_concat.
    unfold bind, clock_now, curl_easy_getinfo_response_code, throw, ret,
      CurlConnectionError1.
    cbn [fst snd clock last_response String.append].
    destruct (decide (ccode out = 0)) as [E|E].
    + rewrite bool_decide_eq_false_2 by (by intros []).
      by rewrite bool_decide_eq_true_2.
    + rewrite bool_decide_eq_true_2 by done.
      by rewrite bool_decide_eq_false_2.
  - cbn [performs clock _handle _options easy_opts].
    repeat split; try done.
    + subst s1. cbn. rewrite lookup_insert_ne by done.
      by rewrite lookup_insert_eq.
    + subst s1. cbn. by rewrite lookup_insert_eq.
Qed.


Lemma lookup_handle_after (h : gmap CURLoption param)
    (log : list (CURLoption * param)) (k : CURLoption) :
  handle_after h log !! k =
    match last_set k log with
    | Some p => Some p
    | None => h !! k
    end.
Proof.
  revert h. induction log as [|e log IH]; intros h; [done|].
  cbn [handle_after foldl last_set]. fold (handle_after (<[e.1:=e.2]> h) log).
  rewrite IH. destruct (last_set k log); [done|].
  case_bool_decide as E.
  - rewrite E. by rewrite lookup_insert_eq.
  - by rewrite lookup_insert_ne.
Qed.

Lemma lookup_registry_after (r : gmap CURLoption string)
    (log : list (CURLoption * param)) (k : CURLoption) :
  registry_after r log !! k =
    match last_set k log with
    | Some p => Some (to_string p)
    | None => r !! k
    end.
Proof.
  revert r. induction log as [|e log IH]; intros r; [done|].
  cbn [registry_after foldl last_set].
  fold (registry_after (<[e.1:=to_string e.2]> r) log).
  rewrite IH. destruct (last_set k log); [done|].
  case_bool_decide as E.
  - rewrite E. by rewrite lookup_insert_eq.
  - by rewrite lookup_insert_ne.
Qed.

Lemma last_set_None (k : CURLoption) (log : list (CURLoption * param)) :
  last_set k log = None ↔ k ∉ log.*1.
Proof.
  induction log as [|e log IH]; cbn [last_set fmap list_fmap].
  - split; [intros _; apply not_elem_of_nil | done].
  - rewrite not_elem_of_cons. destruct (last_set k log) as [p|].
    + split; [done|]. intros [_ H]. by apply IH in H.
    + case_bool_decide as E.
      * split; [done|]. intros [H _]. by destruct H.
      * split; [|done]. intros _. split; [congruence|]. by apply IH.
Qed.

Lemma registry_after_mirrors (h : gmap CURLoption param)
    (log : list (CURLoption * param)) :
  registry_after (to_string <$> h) log = to_string <$> handle_after h log.
Proof.
  revert h. induction log as [|e log IH]; intros h; [done|].
  cbn [registry_after handle_after foldl].
  fold (registry_after (<[e.1:=to_string e.2]> (to_string <$> h)) log).
  fold (handle_after (<[e.1:=e.2]> h) log).
  by rewrite <- IH, fmap_insert.
Qed.

Lemma extends_same (s s' : state) : same_options s s' → extends s s'.
Proof.
  intros (_ & Ho & He & Hl). exists []. unfold extends_by.
  by rewrite app_nil_r.
Qed.

Lemma extends_refl (s : state) : extends s s.
Proof. by apply extends_same. Qed.

Lemma extends_trans (s1 s2 s3 : state) :
  extends s1 s2 → extends s2 s3 → extends s1 s3.
Proof.
  intros (l1 & Hl1 & Ho1 & He1) (l2 & Hl2 & Ho2 & He2).
  exists (l1 ++ l2). unfold extends_by, registry_after, handle_after.
  rewrite !foldl_app, app_assoc. by rewrite Hl2, Ho2, He2, Hl1, Ho1, He1.
Qed.

Lemma extends_applied (o : CURLoption) (p : param) (s : state) :
  extends s (applied o p s).
Proof. by exists [(o, p)]. Qed.

Lemma tracked_bind {A B} (m : M A) (k : A → M B) :
  tracked m → (∀ a, tracked (k a)) → tracked (bind m k).
Proof.
  intros Hm Hk s. rewrite bind_eq. specialize (Hm s).
  destruct (m s) as [s1 [a|e]]; [|done].
  eapply extends_trans; [exact Hm|apply Hk].
Qed.

Lemma tracked_same {A} (m : M A) :
  (∀ s, same_options s (m s).1) → tracked m.
Proof. intros H s. apply extends_same, H. Qed.

Lemma tracked_set_option (o : CURLoption) (p : param) : tracked (set_option o p).
Proof.
  intros s. rewrite set_option_eq.
  destruct (_handle s); [|apply extends_refl].
  destruct (setopt_ok o p); [apply extends_applied|apply extends_refl].
Qed.

Lemma tracked_for_each {A} (body : A → M unit) (l : list A) :
  (∀ a, tracked (body a)) → tracked (for_each body l).
Proof.
  intros Hb. induction l as [|x l IH]; [intros s; apply extends_refl|].
  cbn [for_each]. by apply tracked_bind.
Qed.

Lemma tracked_SET_ssl_verify : tracked SET_ssl_verify.
Proof. apply tracked_bind; [|intros _]; apply tracked_set_option. Qed.

Lemma tracked_ADD_headers (hs : list (string * string)) : tracked (ADD_headers hs).
Proof.
  apply tracked_bind; [by apply tracked_same|]. intros s0.
  destruct (_handle s0); [|by apply tracked_same].
  destruct hs as [|h hs]; [by apply tracked_same|].
  apply tracked_bind.
  - apply tracked_same, for_each_ADD_headers_same.
  - intros _. apply tracked_bind; [by apply tracked_same|].
    intros s1. apply tracked_set_option.
Qed.

Lemma tracked_SET_fields (fs : list (string * string)) : tracked (SET_fields fs).
Proof.
  apply tracked_bind; [by apply tracked_same|]. intros s0.
  destruct (is_closed s0); [by apply tracked_same|].
  destruct fs; [by apply tracked_same|apply tracked_set_option].
Qed.

Lemma tracked_execute : tracked execute.
Proof.
  apply tracked_bind; [by apply tracked_same|]. intros s0.
  destruct (_handle s0); [|by apply tracked_same].
  apply tracked_bind; [apply tracked_set_option|]. intros _.
  apply tracked_bind; [apply tracked_set_option|]. intros _.
  apply tracked_bind; [by apply tracked_same|]. intros r.
  apply tracked_bind; [by apply tracked_same|]. intros tp.
  case_bool_decide; [by apply tracked_same|].
  apply tracked_bind; [by apply tracked_same|]. intros c.
  by apply tracked_same.
Qed.

Lemma tracked_run_op (o : op) : tracked (run_op o).
Proof.
  destruct o; cbn [run_op].
  - apply tracked_set_option.
  - apply tracked_SET_ssl_verify.
  - apply tracked_bind; [apply tracked_SET_ssl_verify|intros _; apply tracked_set_option].
  - apply tracked_bind; [apply tracked_SET_ssl_verify|intros _; apply tracked_set_option].
  - apply tracked_set_option.
  - apply tracked_set_option.
  - apply tracked_ADD_headers.
  - apply tracked_SET_fields.
  - apply tracked_bind; [apply tracked_execute|]. intros _. by apply tracked_same.
Qed.

Lemma tracked_run_ops (os : list op) : tracked (run_ops os).
Proof. apply tracked_for_each, tracked_run_op. Qed.

Ltac crunch H :=
  repeat first
    [ rewrite bind_eq in H
    | rewrite set_option_eq in H
    | progress cbn [_handle applied fst snd] in H
    | match type of H with
      | context [match _handle ?s with _ => _ end] =>
          destruct (_handle s) eqn:?
      | context [if setopt_ok ?o ?p then _ else _] =>
          destruct (setopt_ok o p) eqn:?
      end ];
  try discriminate H.

Lemma failed_option_unchanged (o : op) (s s' : state)
    (what : string) (k : CURLoption) (v : string) :
  run_op o s = (s', Throw (CurlOptionException what k v)) →
  _options s' !! k = _options s !! k.
Proof.
  intros H. destruct o; cbn [run_op] in H.
  - unfold SET_url in H. crunch H.
    unfold CurlOptionException2 in H. by simplify_eq.
  - unfold SET_ssl_verify in H. crunch H;
      unfold CurlOptionException2 in H; simplify_eq; [|done].
    cbn. by rewrite lookup_insert_ne.
  - unfold SET_ssl_verify_using_ca_bundle, SET_ssl_verify in H. crunch H;
      unfold CurlOptionException2 in H; simplify_eq; [| |done];
      cbn; by rewrite !lookup_insert_ne.
  - unfold SET_ssl_verify_using_ca_certs, SET_ssl_verify in H. crunch H;
      unfold CurlOptionException2 in H; simplify_eq; [| |done];
      cbn; by rewrite !lookup_insert_ne.
  - unfold SET_encoding in H. crunch H.
    unfold CurlOptionException2 in H. by simplify_eq.
  - unfold SET_keepalive in H. crunch H.
    unfold CurlOptionException2 in H. by simplify_eq.
  - destruct (_handle s) as [hd|] eqn:Hh.
    2:{ unfold ADD_headers, bind, get, throw in H. rewrite Hh in H. done. }
    destruct headers as [|h hs].
    { unfold ADD_headers, bind, get, ret in H. rewrite Hh in H. done. }
    rewrite (ADD_headers_cons_eq _ _ _ hd Hh) in H.
    pose proof (for_each_ADD_headers_same (h :: hs) s) as (Hh1 & Ho1 & _).
    destruct (for_each ADD_headers_body (h :: hs) s) as [s1 [[]|e]];
      cbn [fst] in *.
    + rewrite set_option_eq, Hh1, Hh in H.
      destruct (setopt_ok _ _); [done|].
      unfold CurlOptionException2 in H. simplify_eq. by rewrite Ho1.
    + simplify_eq. by rewrite Ho1.
  - unfold SET_fields, bind, get, is_closed, throw, ret in H.
    destruct (_handle s) as [hd|] eqn:Hh; cbn in H; [|done].
    destruct fields; [done|].
    rewrite set_option_eq, Hh in H. destruct (setopt_ok _ _); [done|].
    unfold CurlOptionException2 in H. by simplify_eq.
  - rewrite bind_eq in H. unfold execute, get in H. rewrite bind_eq in H.
    destruct (_handle s) as [hd|] eqn:Hh; [|done].
    crunch H.
    + unfold curl_easy_perform, clock_now, curl_easy_getinfo_response_code,
        throw, ret, CurlConnectionError1 in H. cbn in H.
      case_bool_decide; done.
    + unfold CurlOptionException2 in H. simplify_eq.
      cbn. by rewrite lookup_insert_ne.
    + unfold CurlOptionException2 in H. by simplify_eq.
Qed.

Lemma op_calls_logged (o : op) (s s' : state) :
  run_op o s = (s', Ok tt) →
  setopt_log s' = setopt_log s ++ op_calls o s.
Proof.
  intros H. destruct o; cbn [run_op op_calls] in *.
  - unfold SET_url in H. crunch H. by simplify_eq.
  - unfold SET_ssl_verify in H. crunch H. simplify_eq.
    cbn. by rewrite <- app_assoc.
  - unfold SET_ssl_verify_using_ca_bundle, SET_ssl_verify in H. crunch H.
    simplify_eq. cbn. by rewrite <- !app_assoc.
  - unfold SET_ssl_verify_using_ca_certs, SET_ssl_verify in H. crunch H.
    simplify_eq. cbn. by rewrite <- !app_assoc.
  - unfold SET_encoding in H. crunch H. by simplify_eq.
  - unfold SET_keepalive in H. crunch H. by simplify_eq.
  - destruct (_handle s) as [hd|] eqn:Hh.
    2:{ unfold ADD_headers, bind, get, throw in H. rewrite Hh in H. done. }
    destruct headers as [|h hs].
    { unfold ADD_headers, bind, get, ret in H. rewrite Hh in H.
      simplify_eq. by rewrite app_nil_r. }
    rewrite (ADD_headers_cons_eq _ _ _ hd Hh) in H.
    destruct (for_each ADD_headers_body (h :: hs) s) as [s1 [[]|e]] eqn:E;
      [|done].
    apply ADD_headers_loop_returns in E. subst s1.
    rewrite set_option_eq in H. cbn [_handle _header headers_added] in H.
    rewrite Hh in H. destruct (setopt_ok _ _); [|done]. by simplify_eq.
  - unfold SET_fields, bind, get, is_closed, throw, ret in H.
    destruct (_handle s) as [hd|] eqn:Hh; cbn in H; [|done].
    destruct fields as [|f r]; [simplify_eq; by rewrite app_nil_r|].
    rewrite set_option_eq, Hh in H. destruct (setopt_ok _ _); [|done].
    by simplify_eq.
  - rewrite bind_eq in H. unfold execute, get in H. rewrite bind_eq in H.
    destruct (_handle s) as [hd|] eqn:Hh; [|done].
    crunch H.
    unfold curl_easy_perform, clock_now, curl_easy_getinfo_response_code,
      throw, ret in H. cbn in H.
    case_bool_decide; [done|]. cbn in H. simplify_eq.
    cbn. by rewrite <- app_assoc.
Qed.

(** C1.  Whatever sequence of option-setting operations runs on a
    connection, the calls libcurl accepted meanwhile determine the registry:
    an identifier set in the meantime has exactly the string form of the
    value of its most recent accepted call, every other identifier is as it
    was, and the registry has an entry for an identifier exactly if it had
    one before or the identifier was set; the handle's own table changes the
    same way, so a registry that mirrored the handle still does.  An
    operation that returns normally has made exactly its own calls: the URL
    for [SET_url], verify-peer and verify-host for [SET_ssl_verify], these
    and the CA path for the two CA setters, the encoding, keep-alive, the
    header-list pointer for a non-empty [ADD_headers], the POST body for a
    non-empty [SET_fields], the two write bindings for [execute].  When an
    operation throws the option exception for an identifier, the registry's
    entry for that identifier, or its absence, is what it was before the
    operation. *)
Theorem registry_mirrors_applied_state :
  (∀ (os : list op) (s : state),
     let s' := (run_ops os s).1 in
     ∃ l : list (CURLoption * param),
       setopt_log s' = setopt_log s ++ l
       ∧ (∀ k, _options s' !! k =
                 match last_set k l with
                 | Some p => Some (to_string p)
                 | None => _options s !! k
                 end)
       ∧ (∀ k, easy_opts s' !! k =
                 match last_set k l with
                 | Some p => Some p
                 | None => easy_opts s !! k
                 end)
       ∧ (∀ k, k ∈ dom (_options s') ↔ k ∈ dom (_options s) ∨ k ∈ l.*1)
       ∧ (mirrors s → mirrors s'))
  ∧ (∀ (o : op) (s s' : state),
       run_op o s = (s', Ok tt) →
       setopt_log s' = setopt_log s ++ op_calls o s)
  ∧ (∀ (o : op) (s s' : state) (what : string) (k : CURLoption) (v : string),
       run_op o s = (s', Throw (CurlOptionException what k v)) →
       _options s' !! k = _options s !! k).
Proof.
  split; [|split; [apply op_calls_logged|apply failed_option_unchanged]].
  intros os s s'. destruct (tracked_run_ops os s) as (l & Hl & Ho & He).
  fold s' in Hl, Ho, He. exists l.
  split; [done|]. split; [|split; [|split]].
  - intros k. by rewrite Ho, lookup_registry_after.
  - intros k. by rewrite He, lookup_handle_after.
  - intros k. rewrite !elem_of_dom, Ho, lookup_registry_after.
    destruct (last_set k l) as [p|] eqn:E.
    + split; [|by eauto]. intros _. right.
      destruct (decide (k ∈ l.*1)) as [|Hn]; [done|].
      apply last_set_None in Hn. congruence.
    + apply last_set_None in E. split; [by left|]. by intros [|].
  - unfold mirrors. intros Hm. rewrite Ho, He, Hm.
    apply registry_after_mirrors.
Qed.

Lemma foldl_applied (calls : list (CURLoption * param)) (s0 : state) :
  let s1 := foldl (fun s e => applied e.1 e.2 s) s0 calls in
  _handle s1 = _handle s0 ∧ _header s1 = _header s0 ∧ extends_by calls s0 s1.
Proof.
  revert s0. induction calls as [|[o p] calls IH]; intros s0.
  - repeat split; try done. cbn. by rewrite app_nil_r.
  - cbn [foldl fst snd]. destruct (IH (applied o p s0)) as (?&?&Hl&Ho&He).
    repeat split; try done.
    rewrite Hl. cbn. by rewrite <- app_assoc.
Qed.

(** C7.  When [curl_easy_init] returns a handle and libcurl accepts the
    options, each constructor makes exactly these calls, in this order, and
    nothing else: the base part applies no-signal and, in the form that
    takes one, the URL; the Secure part applies verify-peer 1 and verify-host
    2; the Get part then applies HTTP-GET, the encoding "gzip" and
    keep-alive, and the Post part applies HTTP-POST, the encoding "gzip" and
    keep-alive.  Handle and registry hold the options of those calls; the
    bare forms leave the URL unset. *)
Theorem variant_profiles (w : state) (url : string) (hd : positive) :
  easy_init = Some hd →
  (∀ o p, setopt_ok o p = true) →
  (HTTPSConnection0 w
     = (constructed (base_calls None ++ secure_calls) w, Ok tt)
   ∧ HTTPSConnection1 url w
     = (constructed (base_calls (Some url) ++ secure_calls) w, Ok tt)
   ∧ HTTPSGetConnection0 w
     = (constructed (base_calls None ++ secure_calls
                       ++ method_calls CURLOPT_HTTPGET) w, Ok tt)
   ∧ HTTPSGetConnection1 url w
     = (constructed (base_calls (Some url) ++ secure_calls
                       ++ method_calls CURLOPT_HTTPGET) w, Ok tt)
   ∧ HTTPSPostConnection0 w
     = (constructed (base_calls None ++ secure_calls
                       ++ method_calls CURLOPT_POST) w, Ok tt)
   ∧ HTTPSPostConnection1 url w
     = (constructed (base_calls (Some url) ++ secure_calls
                       ++ method_calls CURLOPT_POST) w, Ok tt))
  ∧ (∀ calls : list (CURLoption * param),
       let c := constructed calls w in
       _handle c = Some hd
       ∧ setopt_log c = calls
       ∧ (∀ k, easy_opts c !! k = last_set k calls)
       ∧ (∀ k, _options c !! k = to_string <$> last_set k calls)).
Proof.
  intros Hinit Hacc. split.
  - assert (_handle (CurlConnection_members w) = Some hd) as Hh by done.
    unfold HTTPSGetConnection0, HTTPSGetConnection1, HTTPSPostConnection0,
      HTTPSPostConnection1, HTTPSConnection0, HTTPSConnection1,
      CurlConnection1, CurlConnection0, SET_url, SET_ssl_verify, SET_encoding,
      SET_keepalive, DEFAULT_ENCODING, bind, modify.
    repeat (rewrite (set_option_accept _ _ _ hd) by done).
    done.
  - intros calls c. subst c. unfold constructed.
    destruct (foldl_applied calls (CurlConnection_members w)) as (Hh & _ & Hl & Ho & He).
    split; [by rewrite Hh|]. split; [by rewrite Hl|]. split.
    + intros k. rewrite He, lookup_handle_after. cbn.
      rewrite lookup_empty. by destruct (last_set k calls).
    + intros k. rewrite Ho, lookup_registry_after. cbn.
      rewrite lookup_empty. by destruct (last_set k calls).
Qed.

(** ** Further properties of the string helpers *)

Lemma segments_nonempty (c : ascii) (s : string) : segments c s ≠ [].
Proof.
  induction s as [|a s IH]; cbn; [done|].
  destruct (Ascii.eqb a c); [done|]. by destruct (segments c s).
Qed.

Lemma segments_join (c : ascii) (a b : string) :
  segments c (a +:+ String c b) = segments c a ++ segments c b.
Proof.
  induction a as [|x a IH]; cbn [String.append segments].
  - by rewrite Ascii.eqb_refl.
  - rewrite IH. destruct (Ascii.eqb x c); [done|].
    pose proof (segments_nonempty c a). by destruct (segments c a).
Qed.

Lemma segments_clean (c : ascii) (s : string) :
  Forall (fun seg => contains c seg = false) (segments c s).
Proof.
  induction s as [|a s IH]; cbn [segments].
  - by repeat constructor.
  - destruct (Ascii.eqb a c) eqn:E; [by constructor|].
    destruct (segments c s) as [|seg segs]; [by repeat constructor; cbn; rewrite E|].
    apply Forall_cons in IH as [H1 H2]. constructor; [|done].
    cbn. by rewrite E, H1.
Qed.

Lemma split_first_Some (c : ascii) (s k v : string) :
  split_first c s = Some (k, v) →
  s = k +:+ String c v ∧ contains c k = false.
Proof.
  revert k. induction s as [|a s IH]; intros k; cbn [split_first]; [done|].
  destruct (Ascii.eqb_spec a c) as [->|Hne].
  - by intros [= <- <-].
  - destruct (split_first c s) as [[k0 v0]|]; [|done].
    intros [= <- <-]. destruct (IH k0 eq_refl) as [-> Hk].
    split; [done|]. cbn. rewrite Hk.
    by destruct (Ascii.eqb_spec a c).
Qed.

Lemma split_first_None (c : ascii) (s : string) :
  split_first c s = None ↔ contains c s = false.
Proof.
  induction s as [|a s IH]; cbn [split_first contains]; [done|].
  destruct (Ascii.eqb a c); [done|].
  cbn [orb]. rewrite <- IH. by destruct (split_first c s) as [[??]|].
Qed.

Lemma field_of_segment_decodable (seg : string) :
  contains "&" seg = false →
  Forall decodable_field (field_of_segment seg).
Proof.
  intros Hseg. unfold field_of_segment. case_bool_decide; [constructor|].
  destruct (split_first "=" seg) as [[k v]|] eqn:E; [|constructor].
  apply split_first_Some in E as [-> Hk].
  rewrite contains_app in Hseg. apply orb_false_elim in Hseg as [H1 H2].
  cbn in H2. repeat constructor; done.
Qed.

Lemma fields_roundtrip_decodable (fields : list (string * string)) :
  Forall decodable_field fields →
  fields_str_to_map (fields_wire fields) = fields.
Proof.
  rewrite fields_str_to_map_segments.
  induction fields as [|[k v] r IH]; [done|].
  intros Hall. apply Forall_cons in Hall as [(Hk1 & Hk2 & Hv1) Hr].
  cbn [fst snd] in *.
  rewrite fields_wire_cons. cbn [fst snd].
  assert (contains "&" (k +:+ "=" +:+ v) = false) as Hkv.
  { rewrite !contains_app, Hk1, Hv1. done. }
  destruct r as [|g r].
  - rewrite segments_no_sep by done. cbn [flat_map].
    rewrite field_of_segment_pair by done. done.
  - replace (k +:+ "=" +:+ v +:+ "&" +:+ fields_wire (g :: r))
      with ((k +:+ "=" +:+ v) +:+ String "&" (fields_wire (g :: r)))
      by (by rewrite !append_assoc).
    rewrite segments_app by done. cbn [flat_map].
    rewrite field_of_segment_pair by done.
    rewrite IH by done. done.
Qed.

Lemma fields_str_to_map_decodable (fstr : string) :
  Forall decodable_field (fields_str_to_map fstr).
Proof.
  rewrite fields_str_to_map_segments.
  pose proof (segments_clean "&" fstr) as H.
  induction H as [|seg segs Hseg _ IH]; [constructor|].
  cbn [flat_map]. apply Forall_app. split; [|done].
  by apply field_of_segment_decodable.
Qed.

(** [fields_str_to_map] reads a string piece by piece: what it returns for
    two strings joined by '&' is what it returns for the first followed by
    what it returns for the second.  Empty pieces and pieces without '='
    contribute nothing. *)
Theorem fields_str_to_map_join (a b : string) :
  fields_str_to_map (a +:+ "&" +:+ b)
    = fields_str_to_map a ++ fields_str_to_map b
  ∧ fields_str_to_map (a +:+ "&") = fields_str_to_map a
  ∧ fields_str_to_map ("&" +:+ b) = fields_str_to_map b
  ∧ (contains "=" a = false → contains "&" a = false →
     fields_str_to_map (a +:+ "&" +:+ b) = fields_str_to_map b).
Proof.
  assert (∀ x y, fields_str_to_map (x +:+ "&" +:+ y)
                 = fields_str_to_map x ++ fields_str_to_map y) as Hjoin.
  { intros x y. rewrite !fields_str_to_map_segments.
    change (x +:+ "&" +:+ y) with (x +:+ String "&" y).
    by rewrite segments_join, flat_map_app. }
  split; [apply Hjoin|]. split; [|split].
  - change (a +:+ "&") with (a +:+ "&" +:+ ""). rewrite Hjoin.
    by rewrite app_nil_r.
  - change ("&" +:+ b) with ("" +:+ "&" +:+ b). by rewrite Hjoin.
  - intros Heq Hamp. rewrite Hjoin.
    rewrite (fields_str_to_map_segments a), segments_no_sep by done.
    cbn [flat_map]. unfold field_of_segment.
    case_bool_decide; [done|].
    apply split_first_None in Heq. by rewrite Heq.
Qed.

(** Whatever the input, the keys [fields_str_to_map] returns contain
    neither '&' nor '=' and the values contain no '&'; so writing the result
    out with [SET_fields]' builder and decoding it again gives the same
    pairs. *)
Theorem fields_str_to_map_normal_form (fstr : string) :
  Forall decodable_field (fields_str_to_map fstr)
  ∧ fields_str_to_map (fields_wire (fields_str_to_map fstr))
    = fields_str_to_map fstr.
Proof.
  split; [apply fields_str_to_map_decodable|].
  apply fields_roundtrip_decodable, fields_str_to_map_decodable.
Qed.


Lemma header_list_to_map_Some (l : list string) (ps : list (string * string)) :
  header_list_to_map l = Some ps →
  map join_colon ps = l
  ∧ Forall (fun p => contains ":" p.1 = false) ps.
Proof.
  revert ps. induction l as [|x l IH]; intros ps; cbn [header_list_to_map].
  - by intros [= <-].
  - destruct (split_first ":" x) as [[k v]|] eqn:E; [|done].
    destruct (header_list_to_map l) as [r|]; [|done].
    intros [= <-]. destruct (IH r eq_refl) as [Hl Hr].
    apply split_first_Some in E as [-> Hk].
    split; [by rewrite <- Hl|]. by constructor.
Qed.

Lemma header_list_to_map_is_Some (l : list string) :
  is_Some (header_list_to_map l)
  ↔ Forall (fun x => contains ":" x = true) l.
Proof.
  induction l as [|x l IH]; cbn [header_list_to_map].
  - split; [constructor|by eauto].
  - rewrite Forall_cons, <- IH.
    destruct (split_first ":" x) as [[k v]|] eqn:E.
    + apply split_first_Some in E as [-> Hk].
      rewrite contains_app. cbn. rewrite orb_true_r.
      destruct (header_list_to_map l);
        split; try done; try (by intros [_ [? [=]]]); by intros [? [=]].
    + apply split_first_None in E. rewrite E.
      split; [by intros [? [=]]|by intros [[=] _]].
Qed.

Lemma header_list_to_map_None (l : list string) :
  header_list_to_map l = None →
  Exists (fun x => contains ":" x = false) l.
Proof.
  induction l as [|x l IH]; cbn [header_list_to_map]; [done|].
  destruct (split_first ":" x) as [[k v]|] eqn:E.
  - destruct (header_list_to_map l); [done|].
    intros _. apply Exists_cons_tl. by apply IH.
  - intros _. apply Exists_cons_hd. by apply split_first_None.
Qed.

(** [header_list_to_map] completes exactly when every node contains a
    colon.  It then returns one pair per node, in order, whose key is free
    of colons and which, joined around a colon, is the node again: nothing
    is trimmed or dropped. *)
Theorem header_list_to_map_lossless (l : list string) :
  (is_Some (header_list_to_map l)
   ↔ Forall (fun x => contains ":" x = true) l)
  ∧ match header_list_to_map l with
    | Some ps =>
        map join_colon ps = l
        ∧ List.length ps = List.length l
        ∧ Forall (fun p => contains ":" p.1 = false) ps
    | None => Exists (fun x => contains ":" x = false) l
    end.
Proof.
  split; [apply header_list_to_map_is_Some|].
  destruct (header_list_to_map l) as [ps|] eqn:E.
  - destruct (header_list_to_map_Some l ps E) as [Hl Hk].
    split; [done|]. split; [|done]. by rewrite <- Hl, length_map.
  - by apply header_list_to_map_None.
Qed.

(** ** Further properties of the connection *)

Lemma RESET_headers_eq (s : state) :
  RESET_headers s = (headers_reset s, Ok tt).
Proof.
  unfold RESET_headers, bind, get, curl_slist_free_all, modify,
    headers_reset, slists_freed.
  by destruct (_header s).
Qed.

Lemma RESET_options_eq (s : state) :
  RESET_options s = (options_reset s, Ok tt).
Proof.
  unfold RESET_options. rewrite bind_eq, RESET_headers_eq.
  unfold bind, get, curl_easy_reset, modify, ret, options_reset.
  cbn [_handle headers_reset].
  destruct (_handle s) eqn:E; cbn; unfold with_options, with_easy_opts; cbn;
    by rewrite ?E.
Qed.

Lemma operator_shl_empty (order : list CURLoption) (s : state) :
  _options s = ∅ → operator_shl order s = Some [].
Proof.
  intros H. induction order as [|o r IH]; [done|].
  cbn [operator_shl]. by rewrite H, lookup_empty.
Qed.

(** [RESET_headers] frees the header list and forgets it in the connection
    and in the registry, but makes no call on the handle.  So when the
    header option was applied, the handle still carries it afterwards,
    pointing at a list that is no longer live, while the registry has no
    entry for it: registry and handle no longer agree.  Every other registry
    entry is kept. *)
Theorem RESET_headers_dangling (s : state) (a : positive) :
  _header s = Some a →
  easy_opts s !! CURLOPT_HTTPHEADER = Some (PPtr (Some a)) →
  let s' := headers_reset s in
  RESET_headers s = (s', Ok tt)
  ∧ _header s' = None
  ∧ _options s' !! CURLOPT_HTTPHEADER = None
  ∧ (∀ k, k ≠ CURLOPT_HTTPHEADER → _options s' !! k = _options s !! k)
  ∧ setopt_log s' = setopt_log s
  ∧ easy_opts s' !! CURLOPT_HTTPHEADER = Some (PPtr (Some a))
  ∧ slists s' !! a = None
  ∧ ¬ mirrors s'.
Proof.
  intros Hhd He s'. split; [apply RESET_headers_eq|].
  split; [done|].
  assert (_options s' !! CURLOPT_HTTPHEADER = None) as Ho
    by (cbn; apply lookup_delete_eq).
  split; [exact Ho|]. split.
  { intros k Hk. cbn. by rewrite lookup_delete_ne. }
  split; [done|]. split; [exact He|]. split.
  { cbn. unfold slists_freed. rewrite Hhd. apply lookup_delete_eq. }
  unfold mirrors. intros Hm.
  rewrite Hm, lookup_fmap in Ho. cbn in Ho. by rewrite He in Ho.
Qed.

(** Neither [RESET_headers] nor [RESET_options] checks the handle: both
    return normally on every connection, open or closed.  [RESET_options]
    leaves an empty registry and no header list, keeps the handle pointer,
    and a second call changes nothing; the report of the connection is then
    empty in any iteration order.  On an open connection registry and
    handle agree again afterwards, whatever they were before. *)
Theorem RESET_never_throws (s : state) (order : list CURLoption) :
  (RESET_headers s).2 = Ok tt
  ∧ _handle (RESET_headers s).1 = _handle s
  ∧ let r := (RESET_options s).1 in
    (RESET_options s).2 = Ok tt
    ∧ _options r = ∅
    ∧ _header r = None
    ∧ _handle r = _handle s
    ∧ RESET_options r = (r, Ok tt)
    ∧ operator_shl order r = Some []
    ∧ match _handle s with
      | Some _ => easy_opts r = ∅ ∧ mirrors r
      | None => easy_opts r = easy_opts s
      end.
Proof.
  rewrite RESET_headers_eq. split; [done|]. split; [done|].
  rewrite RESET_options_eq. cbn [fst snd].
  split; [done|]. split; [done|]. split; [done|]. split; [done|].
  split.
  { rewrite RESET_options_eq. unfold options_reset, slists_freed.
    cbn. by destruct (_handle s). }
  split; [by apply operator_shl_empty|].
  unfold options_reset. cbn.
  destruct (_handle s); [|done]. split; [done|].
  unfold mirrors. cbn. by rewrite fmap_empty.
Qed.

Lemma ADD_headers_ok (h : string * string) (hs : list (string * string))
    (s : state) (hd : positive) :
  _handle s = Some hd →
  appends_ok (slist_data (_header s) s) (map header_node (h :: hs)) = true →
  setopt_ok CURLOPT_HTTPHEADER (PPtr (Some (head_after s))) = true →
  ADD_headers (h :: hs) s
  = (applied CURLOPT_HTTPHEADER (PPtr (Some (head_after s)))
       (headers_added (map header_node (h :: hs)) s), Ok tt).
Proof.
  intros Hh Hok Hset.
  rewrite (ADD_headers_cons_eq _ _ _ hd Hh), ADD_headers_loop_ok by done.
  rewrite set_option_eq. cbn [_handle _header headers_added].
  by rewrite Hh, Hset.
Qed.

Lemma appends_ok_app (cur l1 l2 : list string) :
  appends_ok cur (l1 ++ l2)
  = appends_ok cur l1 && appends_ok (cur ++ l1) l2.
Proof.
  revert cur. induction l1 as [|x l1 IH]; intros cur; cbn [app appends_ok].
  - by rewrite app_nil_r.
  - rewrite IH, <- app_assoc. cbn [app]. by rewrite andb_assoc.
Qed.

(** After [RESET_headers], [ADD_headers] starts a new list: on an open
    connection where libcurl accepts the appends and the header option, the
    connection's list then holds exactly the nodes of the new pairs, none of
    the earlier ones, and registry and handle both name the new head. *)
Theorem RESET_headers_then_ADD_headers
    (h : string * string) (hs : list (string * string)) (s : state)
    (hd : positive) :
  _handle s = Some hd →
  appends_ok [] (map header_node (h :: hs)) = true →
  setopt_ok CURLOPT_HTTPHEADER (PPtr (Some (fresh (dom (slists_freed s))))) = true →
  ∃ s2,
    bind RESET_headers (fun _ => ADD_headers (h :: hs)) s = (s2, Ok tt)
    ∧ _header s2 = Some (fresh (dom (slists_freed s)))
    ∧ slist_data (_header s2) s2 = map header_node (h :: hs)
    ∧ _options s2 !! CURLOPT_HTTPHEADER = Some (to_string (PPtr (_header s2)))
    ∧ easy_opts s2 !! CURLOPT_HTTPHEADER = Some (PPtr (_header s2)).
Proof.
  intros Hh Hok Hset.
  eexists. split.
  - rewrite bind_eq, RESET_headers_eq.
    apply (ADD_headers_ok _ _ _ hd); [done|done|exact Hset].
  - split; [done|]. split.
    + cbn. by rewrite lookup_insert_eq.
    + cbn. by rewrite !lookup_insert_eq.
Qed.

(** [ADD_headers] accumulates: on an open connection where libcurl accepts
    the appends and the header option, two calls in a row leave the
    connection's pointer, libcurl's lists, the registry and the handle's
    options exactly as one call with the two lists joined does; the list
    then holds the earlier nodes, the nodes of the first call and those of
    the second, in that order. *)
Theorem ADD_headers_accumulates
    (h1 : string * string) (hs1 : list (string * string))
    (h2 : string * string) (hs2 : list (string * string))
    (s : state) (hd : positive) :
  _handle s = Some hd →
  appends_ok (slist_data (_header s) s)
             (map header_node ((h1 :: hs1) ++ h2 :: hs2)) = true →
  setopt_ok CURLOPT_HTTPHEADER (PPtr (Some (head_after s))) = true →
  ∃ s12 s',
    bind (ADD_headers (h1 :: hs1)) (fun _ => ADD_headers (h2 :: hs2)) s
      = (s12, Ok tt)
    ∧ ADD_headers ((h1 :: hs1) ++ h2 :: hs2) s = (s', Ok tt)
    ∧ _header s12 = _header s'
    ∧ slists s12 = slists s'
    ∧ _options s12 = _options s'
    ∧ easy_opts s12 = easy_opts s'
    ∧ slist_data (_header s12) s12
        = slist_data (_header s) s ++ map header_node (h1 :: hs1)
            ++ map header_node (h2 :: hs2).
Proof.
  intros Hh Hok Hset.
  pose proof Hok as Hok'. rewrite map_app, appends_ok_app in Hok'.
  apply andb_prop in Hok' as [Hok1 Hok2].
  set (p := PPtr (Some (head_after s))).
  set (l1 := map header_node (h1 :: hs1)) in *.
  set (l2 := map header_node (h2 :: hs2)) in *.
  set (s1 := applied CURLOPT_HTTPHEADER p (headers_added l1 s)).
  assert (head_after s1 = head_after s) as Hhead by done.
  assert (slist_data (_header s1) s1 = slist_data (_header s) s ++ l1) as Hd1.
  { cbn. by rewrite lookup_insert_eq. }
  exists (applied CURLOPT_HTTPHEADER p (headers_added l2 s1)),
         (applied CURLOPT_HTTPHEADER p (headers_added (l1 ++ l2) s)).
  split.
  { rewrite bind_eq, (ADD_headers_ok _ _ _ hd) by done. fold l1 p s1.
    rewrite (ADD_headers_ok _ _ _ hd); [by rewrite Hhead|done| |].
    - by rewrite Hd1.
    - by rewrite Hhead. }
  split.
  { change ((h1 :: hs1) ++ h2 :: hs2) with (h1 :: (hs1 ++ h2 :: hs2)) in *.
    rewrite (ADD_headers_ok _ _ _ hd) by done.
    subst l1 l2. by rewrite <- map_app. }
  split; [done|]. split.
  { cbn [slists applied headers_added]. rewrite Hd1, Hhead.
    change (slists s1)
      with (<[head_after s := slist_data (_header s) s ++ l1]> (slists s)).
    rewrite insert_insert_eq. by rewrite app_assoc. }
  split.
  { subst s1. cbn [_options applied headers_added].
    by rewrite insert_insert_eq. }
  split.
  { subst s1. cbn [easy_opts applied headers_added].
    by rewrite insert_insert_eq. }
  cbn [_header applied headers_added slist_data slists].
  rewrite lookup_insert_eq. cbn [default]. rewrite Hd1.
  by rewrite app_assoc.
Qed.

(** What [SET_fields] registers is what the report decodes: on an open
    connection where libcurl accepts the POST body, for pairs without NUL
    whose keys contain neither '&' nor '=' and whose values contain no '&',
    the registry entry is the wire string and the renderer's POST-fields
    case turns it back into one line per original pair, in order; no other
    registry entry changes. *)
Theorem SET_fields_rendered
    (f : string * string) (r : list (string * string)) (s : state)
    (hd : positive) :
  _handle s = Some hd →
  Forall decodable_field (f :: r) →
  Forall nul_free_field (f :: r) →
  setopt_ok CURLOPT_COPYPOSTFIELDS (PStr (fields_wire (f :: r))) = true →
  ∃ s',
    SET_fields (f :: r) s = (s', Ok tt)
    ∧ _options s' !! CURLOPT_COPYPOSTFIELDS = Some (fields_wire (f :: r))
    ∧ easy_opts s' !! CURLOPT_COPYPOSTFIELDS
        = Some (PStr (fields_wire (f :: r)))
    ∧ (∀ k, k ≠ CURLOPT_COPYPOSTFIELDS → _options s' !! k = _options s !! k)
    ∧ render_entry s' (CURLOPT_COPYPOSTFIELDS, fields_wire (f :: r))
        = Some ((TAB +:+ "CURLOPT_COPYPOSTFIELDS" +:+ ":")
                  :: map pair_line (f :: r)).
Proof.
  intros Hh Hdec Hnul Hset.
  exists (applied CURLOPT_COPYPOSTFIELDS (PStr (fields_wire (f :: r))) s).
  split.
  { unfold SET_fields, bind, get, is_closed. rewrite Hh.
    rewrite bool_decide_eq_false_2 by done.
    rewrite c_str_id by (by apply contains_fields_wire_nul).
    by apply (set_option_accept _ _ _ hd). }
  split; [cbn; by rewrite lookup_insert_eq|].
  split; [cbn; by rewrite lookup_insert_eq|].
  split; [intros k Hk; cbn; by rewrite lookup_insert_ne|].
  unfold render_entry. cbn [fst snd option_strings].
  by rewrite fields_roundtrip_decodable.
Qed.

Lemma c_str_cut (a b : string) :
  contains Ascii.zero a = false →
  c_str (a +:+ String Ascii.zero b) = a.
Proof.
  induction a as [|x a IH]; cbn; [done|].
  intros [Hx Ha]%orb_false_elim. rewrite Hx. by rewrite IH.
Qed.

Lemma operator_shl_None (order : list CURLoption) (s : state)
    (o : CURLoption) (v : string) :
  o ∈ order →
  _options s !! o = Some v →
  render_entry s (o, v) = None →
  operator_shl order s = None.
Proof.
  intros Hin Ho Hr. induction order as [|x r IH]; [by apply elem_of_nil in Hin|].
  cbn [operator_shl]. apply elem_of_cons in Hin as [<-|Hin].
  - by rewrite Ho, Hr.
  - rewrite IH by done. destruct (_options s !! x); [|done].
    by destruct (render_entry s (x, s0)).
Qed.

(** A header whose name has a NUL before any colon is stored cut off at the
    NUL, without its colon ([ADD_headers] passes [s.c_str()]).  The call
    still succeeds, but from then on [header_list_to_map] runs past the end
    of that node: the renderer's header case, and so the whole report, is
    undefined for the connection. *)
Theorem ADD_headers_nul_in_name
    (pre : list (string * string)) (h : string * string)
    (post : list (string * string)) (a b : string)
    (s : state) (hd : positive) (order : list CURLoption) :
  _handle s = Some hd →
  h.1 = a +:+ String Ascii.zero b →
  contains Ascii.zero a = false →
  contains ":" a = false →
  appends_ok (slist_data (_header s) s)
             (map header_node (pre ++ h :: post)) = true →
  setopt_ok CURLOPT_HTTPHEADER (PPtr (Some (head_after s))) = true →
  CURLOPT_HTTPHEADER ∈ order →
  ∃ s',
    ADD_headers (pre ++ h :: post) s = (s', Ok tt)
    ∧ header_node h = a
    ∧ a ∈ slist_data (_header s') s'
    ∧ rendered_headers s' = None
    ∧ (∀ v, render_entry s' (CURLOPT_HTTPHEADER, v) = None)
    ∧ operator_shl order s' = None.
Proof.
  intros Hh Hname Hnul Hcolon Hok Hset Hin.
  assert (header_node h = a) as Hnode.
  { unfold header_node, header_line. rewrite Hname.
    rewrite append_assoc. cbn [String.append]. by apply c_str_cut. }
  destruct (pre ++ h :: post) as [|x l] eqn:E; [by destruct pre|].
  set (s' := applied CURLOPT_HTTPHEADER (PPtr (Some (head_after s)))
               (headers_added (map header_node (x :: l)) s)).
  assert (slist_data (_header s') s'
          = slist_data (_header s) s ++ map header_node (x :: l)) as Hdata.
  { cbn. by rewrite lookup_insert_eq. }
  assert (a ∈ slist_data (_header s') s') as Hmem.
  { rewrite Hdata, <- E, map_app. cbn [map]. rewrite Hnode.
    apply elem_of_app. right. apply elem_of_app. right. by left. }
  assert (rendered_headers s' = None) as Hren.
  { unfold rendered_headers.
    destruct (header_list_to_map (slist_data (_header s') s')) eqn:Hl; [|done].
    assert (is_Some (header_list_to_map (slist_data (_header s') s'))) as HS
      by (by rewrite Hl).
    apply header_list_to_map_is_Some in HS.
    rewrite Forall_forall in HS. specialize (HS a Hmem). congruence. }
  assert (∀ v, render_entry s' (CURLOPT_HTTPHEADER, v) = None) as Hentry.
  { intros v. unfold render_entry. cbn [fst option_strings].
    unfold rendered_headers in Hren. by rewrite Hren. }
  exists s'. split; [by apply (ADD_headers_ok _ _ _ hd)|].
  split; [done|]. split; [done|]. split; [done|]. split; [done|].
  apply (operator_shl_None order s' CURLOPT_HTTPHEADER
           (to_string (PPtr (Some (head_after s))))); [done| |done].
  cbn. by rewrite lookup_insert_eq.
Qed.

Lemma close_without_header (s : state) :
  _header s = None →
  (close s).2 = Ok tt ∧ slists (close s).1 = slists s
  ∧ _header (close s).1 = None ∧ _handle (close s).1 = None.
Proof.
  intros H. unfold close, bind, get, curl_easy_cleanup, modify, ret.
  rewrite H. destruct (_handle s) eqn:Hh; cbn; by rewrite ?H, ?Hh.
Qed.

(** What a failed [ADD_headers] leaves behind.  When the pairs of [pre]
    went in and the next append failed, the connection no longer points at
    the list, so [close] (and the destructor) frees none of libcurl's lists:
    the list with the earlier entries and those of [pre] stays allocated.
    The report shows an empty header section for the connection, whatever
    the registry still says. *)
Theorem failed_ADD_headers_leaks
    (pre : list (string * string)) (h : string * string)
    (post : list (string * string)) (s : state) (hd : positive) (v : string) :
  _handle s = Some hd →
  pre ≠ [] →
  appends_ok (slist_data (_header s) s) (map header_node pre) = true →
  slist_alloc_ok (slist_data (_header s) s ++ map header_node pre)
                 (header_node h) = false →
  let s' := (ADD_headers (pre ++ h :: post) s).1 in
  let c := (close s').1 in
  (close s').2 = Ok tt
  ∧ _header c = None ∧ _handle c = None
  ∧ slists c = slists s'
  ∧ slists c !! head_after s
      = Some (slist_data (_header s) s ++ map header_node pre)
  ∧ render_entry s' (CURLOPT_HTTPHEADER, v)
      = Some [TAB +:+ "CURLOPT_HTTPHEADER" +:+ ":"].
Proof.
  intros Hh Hne Hpre Hfail s' c.
  assert (s' = headers_lost (map header_node pre) s) as Hs'.
  { subst s'. destruct (pre ++ h :: post) as [|x l] eqn:E; [by destruct pre|].
    rewrite (ADD_headers_cons_eq _ _ _ hd Hh), <- E.
    by rewrite ADD_headers_loop_fails. }
  assert (_header s' = None) as Hnull by (by rewrite Hs').
  destruct (close_without_header s' Hnull) as (Hok & Hsl & H1 & H2).
  split; [done|].
  split; [done|]. split; [done|]. split; [done|]. split.
  - fold c in Hsl. rewrite Hsl, Hs'. unfold headers_lost.
    destruct pre as [|p pre]; [done|]. cbn. by rewrite lookup_insert_eq.
  - unfold render_entry. cbn [fst option_strings]. by rewrite Hnull.
Qed.


(** [execute] makes no request unless both write bindings went through:
    when libcurl rejects the write function or the write destination, the
    call throws the option exception for the rejected one before
    [curl_easy_perform]; no transfer is counted, clock and last response
    code are as before, and the registry entry of the rejected binding is
    unchanged. *)
Theorem execute_binding_failure (s : state) (hd : positive) :
  _handle s = Some hd →
  setopt_ok CURLOPT_WRITEFUNCTION (PPtr (Some write_fn))
    && setopt_ok CURLOPT_WRITEDATA (PPtr (Some cb_addr)) = false →
  ∃ s' o p,
    execute s = (s', Throw (CurlOptionException2 o (to_string p)))
    ∧ ((o, p) = (CURLOPT_WRITEFUNCTION, PPtr (Some write_fn))
       ∨ (o, p) = (CURLOPT_WRITEDATA, PPtr (Some cb_addr)))
    ∧ setopt_ok o p = false
    ∧ performs s' = performs s
    ∧ clock s' = clock s
    ∧ last_response s' = last_response s
    ∧ _options s' !! o = _options s !! o.
Proof.
  intros Hh Hrej.
  destruct (setopt_ok CURLOPT_WRITEFUNCTION (PPtr (Some write_fn))) eqn:Hf.
  - cbn [andb] in Hrej.
    exists (applied CURLOPT_WRITEFUNCTION (PPtr (Some write_fn)) s),
           CURLOPT_WRITEDATA, (PPtr (Some cb_addr)).
    split.
    { unfold execute. rewrite bind_eq. unfold get at 1. rewrite Hh.
      rewrite bind_eq, (set_option_accept _ _ _ hd) by done.
      rewrite bind_eq, set_option_eq. cbn [_handle applied].
      by rewrite Hh, Hrej. }
    split; [by right|]. split; [done|]. split; [done|]. split; [done|].
    split; [done|]. cbn. by rewrite lookup_insert_ne.
  - exists s, CURLOPT_WRITEFUNCTION, (PPtr (Some write_fn)).
    split.
    { unfold execute. rewrite bind_eq. unfold get at 1. rewrite Hh.
      rewrite bind_eq, set_option_eq. by rewrite Hh, Hf. }
    split; [by left|]. done.
Qed.

End Transport.

(** ** The claims about [streaming_info.cpp] *)

Lemma stoi_cases (s : string) :
  (∃ v, stoi s = Returns v)
  ∨ stoi s = Raises (std_invalid_argument "stoi")
  ∨ stoi s = Raises (std_out_of_range "stoi").
Proof.
  unfold stoi. destruct (strto s) as [[neg v]|]; [|by right; left].
  destruct (_ || _); [by right; right|left; eauto].
Qed.

Lemma outcome_bind_stoi_not_invalid (s : string) (k : Z → outcome Z) :
  (∀ v, k v ≠ Raises invalid_timestamp) →
  outcome_bind (stoi s) k ≠ Raises invalid_timestamp.
Proof.
  intros Hk. destruct (stoi_cases s) as [[v ->]|[-> | ->]]; [apply Hk|done..].
Qed.

Lemma overwrite_at_length (ps : list nat) (f : nat → ascii) (i : nat) (s : string) :
  String.length (overwrite_at ps f i s) = String.length s.
Proof.
  revert i. induction s as [|c s IH]; intros i; cbn; [done|]. by rewrite IH.
Qed.

(** C9.  [timestamp_to_ms] throws its invalid-timestamp [APIException]
    exactly when the string is not 24 characters long or its characters 20
    to 23 are not "0000".  The characters at positions 4, 7, 10, 13, 16 and
    19 never matter: replacing them by anything gives the same outcome.  So
    a string with '-' for the sign, or with letters for the separators,
    yields an epoch-milliseconds value like the well-formed one. *)
Theorem timestamp_to_ms_validation :
  (∀ ts : string,
     timestamp_to_ms ts = Raises invalid_timestamp
     ↔ (String.length ts ≠ 24%nat ∨ substring 20 4 ts ≠ "0000"))
  ∧ (∀ (f : nat → ascii) (ts : string),
       timestamp_to_ms (overwrite_at skipped_positions f 0 ts)
       = timestamp_to_ms ts)
  ∧ timestamp_to_ms "2018-06-12T02:18:23+0000" = Returns 1528769903000
  ∧ timestamp_to_ms "2018-06-12T02:18:23-0000" = Returns 1528769903000
  ∧ timestamp_to_ms "2018x06y12z02a18b23c0000" = Returns 1528769903000.
Proof.
  split; [|split; [|by vm_compute]].
  - intros ts. unfold timestamp_to_ms.
    destruct (decide (String.length ts = 24%nat)) as [Hlen|Hlen].
    + rewrite bool_decide_eq_false_2 by (by intros []).
      destruct (String.eqb_spec (substring 20 4 ts) "0000") as [E|E];
        cbn [negb orb].
      * split; [|by intros [|]].
        intros H. exfalso. revert H.
        repeat (apply outcome_bind_stoi_not_invalid; intros ?). done.
      * split; [by right|done].
    + rewrite bool_decide_eq_true_2 by done. cbn [orb]. split; [by left|done].
  - intros f ts. unfold timestamp_to_ms at 1 2.
    rewrite overwrite_at_length.
    destruct (decide (String.length ts = 24%nat)) as [Hlen|Hlen].
    + do 24 (destruct ts as [|? ts]; [done|]).
      destruct ts; [|done]. reflexivity.
    + by rewrite !bool_decide_eq_true_2.
Qed.

(** C10.  The [StreamerService] constructor compares its argument with 18
    distinct names.  Each of them yields its own enumerator; every other
    string, "CHART_FOREX" and "TIMESALE_FOREX" among them, throws the
    [ValueException] whose message ends with the string itself. *)
Theorem StreamerService_accepts_exactly :
  List.length service_names = 18%nat
  ∧ NoDup service_names
  ∧ Forall2 (fun name t => StreamerService name = Returns t)
            service_names service_types
  ∧ (∀ name : string,
       match StreamerService name with
       | Returns _ => (name ∈ service_names)
       | Raises e =>
           (name ∉ service_names)
           ∧ e = ValueException ("invalid service name: " +:+ name)
       end)
  ∧ StreamerService "CHART_FOREX"
      = Raises (ValueException "invalid service name: CHART_FOREX")
  ∧ StreamerService "TIMESALE_FOREX"
      = Raises (ValueException "invalid service name: TIMESALE_FOREX").
Proof.
  split; [done|]. split; [compute_done|].
  split; [repeat constructor|]. split; [|done].
  intros name. unfold StreamerService.
  repeat match goal with
         | |- context [String.eqb name ?x] =>
             destruct (String.eqb_spec name x) as [->|?];
             [compute_done|]
         end.
  split; [|done]. unfold service_names.
  rewrite !not_elem_of_cons. repeat split; try done. apply not_elem_of_nil.
Qed.

(** ** Further properties of [streaming_info.cpp] *)

Lemma digit_of_bound (c : ascii) (d : Z) :
  digit_of c = Some d → 0 ≤ d ≤ 9.
Proof.
  unfold digit_of.
  destruct (Nat.leb_spec 48 (nat_of_ascii c)), (Nat.leb_spec (nat_of_ascii c) 57);
    cbn; intros [= <-]; lia.
Qed.

Lemma read_digits_bound (s : string) (acc : Z) :
  0 ≤ acc →
  0 ≤ read_digits acc s < (acc + 1) * 10 ^ Z.of_nat (String.length s).
Proof.
  revert acc. induction s as [|c r IH]; intros acc Hacc; cbn [read_digits String.length].
  - cbn. lia.
  - rewrite Nat2Z.inj_succ, Z.pow_succ_r by lia.
    assert (0 < 10 ^ Z.of_nat (String.length r)) by (apply Z.pow_pos_nonneg; lia).
    destruct (digit_of c) as [d|] eqn:E.
    + apply digit_of_bound in E.
      specialize (IH (acc * 10 + d) ltac:(lia)). nia.
    + nia.
Qed.

Lemma skip_spaces_length (s : string) :
  (String.length (skip_spaces s) ≤ String.length s)%nat.
Proof.
  induction s as [|c r IH]; cbn [skip_spaces]; [done|].
  destruct (isspace c); cbn [String.length]; lia.
Qed.

Lemma strto_bound (s : string) (neg : bool) (v : Z) :
  strto s = Some (neg, v) →
  0 ≤ v < 10 ^ Z.of_nat (String.length s).
Proof.
  unfold strto. pose proof (skip_spaces_length s) as Hlen.
  assert (∀ s2, (String.length s2 ≤ String.length s)%nat →
            0 ≤ read_digits 0 s2 < 10 ^ Z.of_nat (String.length s)) as Hb.
  { intros s2 H2. pose proof (read_digits_bound s2 0 ltac:(lia)) as Hr.
    assert (10 ^ Z.of_nat (String.length s2) ≤ 10 ^ Z.of_nat (String.length s))
      by (apply Z.pow_le_mono_r; lia).
    lia. }
  destruct (skip_spaces s) as [|c r] eqn:E.
  - cbn. done.
  - cbn [String.length] in Hlen.
    destruct (Ascii.eqb_spec c "-") as [->|Hm];
      [|destruct (Ascii.eqb_spec c "+") as [->|Hp]].
    + destruct (starts_with_digit r); [|done]. intros [= _ <-].
      apply Hb. lia.
    + destruct (starts_with_digit r); [|done]. intros [= _ <-].
      apply Hb. lia.
    + assert (match String c r with
              | String "-" r0 => (true, r0)
              | String "+" r0 => (false, r0)
              | _ => (false, String c r)
              end = (false, String c r)) as ->.
      { destruct c as [[] [] [] [] [] [] [] []]; try done. }
      destruct (starts_with_digit (String c r)); [|done]. intros [= _ <-].
      apply (Hb (String c r)). cbn [String.length]. lia.
Qed.

Lemma substring_length (n m : nat) (s : string) :
  (String.length (substring n m s) ≤ m)%nat.
Proof.
  revert n m. induction s as [|c r IH]; intros n m.
  - destruct n, m; cbn; lia.
  - destruct n as [|n]; [destruct m as [|m]|]; cbn [substring String.length].
    + lia.
    + specialize (IH 0%nat m). lia.
    + apply IH.
Qed.

Lemma stoi_short (s : string) (n : nat) :
  (String.length s ≤ n)%nat → (n ≤ 9)%nat →
  stoi s = Raises (std_invalid_argument "stoi")
  ∨ ∃ v, stoi s = Returns v ∧ - 10 ^ Z.of_nat n < v < 10 ^ Z.of_nat n.
Proof.
  intros Hlen Hn. unfold stoi.
  destruct (strto s) as [[neg v]|] eqn:E; [|by left].
  apply strto_bound in E.
  assert (10 ^ Z.of_nat (String.length s) ≤ 10 ^ Z.of_nat n)
    by (apply Z.pow_le_mono_r; lia).
  assert (10 ^ Z.of_nat n ≤ 10 ^ 9) by (apply Z.pow_le_mono_r; lia).
  right. exists (if neg then - v else v).
  assert (- 10 ^ Z.of_nat n < (if neg then - v else v) < 10 ^ Z.of_nat n)
    by (destruct neg; lia).
  split; [|done].
  rewrite orb_false_intro; [done| |]; unfold INT_MIN, INT_MAX; lia.
Qed.

Lemma timegm_bound (year mon mday hour min sec : Z) :
  - 10 ^ 4 < year < 10 ^ 4 →
  - 10 ^ 2 < mon < 10 ^ 2 →
  - 10 ^ 2 < mday < 10 ^ 2 →
  - 10 ^ 2 < hour < 10 ^ 2 →
  - 10 ^ 2 < min < 10 ^ 2 →
  - 10 ^ 2 < sec < 10 ^ 2 →
  - 4 * 10 ^ 11 < timegm (mk_tm sec min hour mday (mon - 1) (year - 1900) 0)
    < 4 * 10 ^ 11.
Proof.
  intros Hy Hmo Hd Hh Hmi Hs.
  unfold timegm, days_from_civil. cbn [tm_year tm_mon tm_mday tm_hour tm_min tm_sec].
  change (10 ^ 4) with 10000 in *. change (10 ^ 2) with 100 in *.
  change (10 ^ 11) with 100000000000.
  destruct (Z.leb_spec ((mon - 1) mod 12 + 1) 2),
           (Z.ltb_spec 2 ((mon - 1) mod 12 + 1));
    Z.div_mod_to_equations; lia.
Qed.

(** The outcomes of [timestamp_to_ms].  It throws its [APIException], or
    [std::invalid_argument] out of [stoi] when a field does not start with a
    number, or it returns; [stoi] never throws [std::out_of_range] here, as
    the fields have at most four characters.  A returned value is a whole
    number of seconds times 1000, and small enough that the multiplication
    by [1000LL] never wraps around. *)
Theorem timestamp_to_ms_outcomes (ts : string) :
  timestamp_to_ms ts = Raises invalid_timestamp
  ∨ timestamp_to_ms ts = Raises (std_invalid_argument "stoi")
  ∨ ∃ secs, timestamp_to_ms ts = Returns (secs * 1000)
            ∧ - 4 * 10 ^ 11 < secs < 4 * 10 ^ 11
            ∧ - 2 ^ 63 ≤ secs * 1000 < 2 ^ 63.
Proof.
  unfold timestamp_to_ms.
  destruct (_ || _); [by left|]. right.
  destruct (stoi_short (substring 0 4 ts) 4 (substring_length _ _ _) ltac:(lia))
    as [->|(year & -> & Hy)]; [by left|].
  destruct (stoi_short (substring 5 2 ts) 2 (substring_length _ _ _) ltac:(lia))
    as [->|(mon & -> & Hmo)]; [by left|].
  destruct (stoi_short (substring 8 2 ts) 2 (substring_length _ _ _) ltac:(lia))
    as [->|(mday & -> & Hd)]; [by left|].
  destruct (stoi_short (substring 11 2 ts) 2 (substring_length _ _ _) ltac:(lia))
    as [->|(hour & -> & Hh)]; [by left|].
  destruct (stoi_short (substring 14 2 ts) 2 (substring_length _ _ _) ltac:(lia))
    as [->|(min & -> & Hmi)]; [by left|].
  destruct (stoi_short (substring 17 2 ts) 2 (substring_length _ _ _) ltac:(lia))
    as [->|(sec & -> & Hs)]; [by left|].
  right. cbn [outcome_bind].
  pose proof (timegm_bound year mon mday hour min sec Hy Hmo Hd Hh Hmi Hs) as Hb.
  set (secs := timegm _) in *. exists secs.
  change (10 ^ 11) with 100000000000 in *.
  change (2 ^ 63) with 9223372036854775808.
  split; [|lia]. f_equal. unfold wrap64.
  change (2 ^ 63) with 9223372036854775808.
  change (2 ^ 64) with 18446744073709551616.
  rewrite Z.mod_small; lia.
Qed.

(** Names and enumerators of [StreamerService] correspond one to one: the
    constructor maps the name of every enumerator to that enumerator, a
    string it accepts is the name of the enumerator it yields, and a string
    it rejects is the name of none.  So two different strings never yield
    the same service. *)
Theorem StreamerService_name_roundtrip :
  (∀ t : StreamerService_type, StreamerService (service_name_of t) = Returns t)
  ∧ (∀ name : string,
       match StreamerService name with
       | Returns t => service_name_of t = name
       | Raises _ => ∀ t, service_name_of t ≠ name
       end)
  ∧ (∀ (n1 n2 : string) (t : StreamerService_type),
       StreamerService n1 = Returns t → StreamerService n2 = Returns t →
       n1 = n2).
Proof.
  assert (∀ name : string,
            match StreamerService name with
            | Returns t => service_name_of t = name
            | Raises _ => ∀ t, service_name_of t ≠ name
            end) as Hinv.
  { intros name. unfold StreamerService.
    repeat match goal with
           | |- context [String.eqb name ?x] =>
               destruct (String.eqb_spec name x) as [->|?]; [done|]
           end.
    intros t. destruct t; cbn; congruence. }
  split; [by intros []|]. split; [exact Hinv|].
  intros n1 n2 t H1 H2.
  pose proof (Hinv n1) as E1. pose proof (Hinv n2) as E2.
  rewrite H1 in E1. rewrite H2 in E2. congruence.
Qed.

(** ** The theorems at concrete inputs *)

Lemma registry_mirrors_applied_state_witness :
  let s := (CurlConnection0 reject_cainfo (Some 1%positive) world0).1 in
  let r := run_op reject_cainfo alloc_all stub_transfer 2 3
             (OpSET_ssl_verify_using_ca_bundle "/etc/ca.pem") s in
  r.2 = Throw (CurlOptionException2 CURLOPT_CAINFO "/etc/ca.pem")
  ∧ _options r.1 !! CURLOPT_SSL_VERIFYPEER = Some "1"
  ∧ _options r.1 !! CURLOPT_CAINFO = _options s !! CURLOPT_CAINFO.
Proof.
  intros s r.
  assert (r.2 = Throw (CurlOptionException2 CURLOPT_CAINFO "/etc/ca.pem"))
    as Hthrow by (by vm_compute).
  split; [exact Hthrow|]. split; [by vm_compute|].
  eapply (proj2 (proj2 (registry_mirrors_applied_state
                          reject_cainfo alloc_all stub_transfer 2 3))
            (OpSET_ssl_verify_using_ca_bundle "/etc/ca.pem") s r.1).
  unfold CurlOptionException2 in Hthrow. rewrite <- Hthrow.
  apply surjective_pairing.
Defined.


Lemma execute_protocol_witness :
  let s := (bind (HTTPSPostConnection1 accept_all (Some 1%positive)
                    "https://example.test/api")
                 (fun _ => SET_fields accept_all [("k", "v")]) world0).1 in
  _handle s = Some 1%positive
  ∧ (execute accept_all stub_transfer 2 3 s).2 = Ok (200, "OK", 107)
  ∧ (execute accept_all stub_refused 2 3 s).2
    = Throw (CurlConnectionError "connection error (7)" 7)
  ∧ performs (execute accept_all stub_refused 2 3 s).1 = 1%nat
  ∧ clock (execute accept_all stub_refused 2 3 s).1 = 103.
Proof.
  intros s.
  assert (_handle s = Some 1%positive) as Hs by (by vm_compute).
  split; [exact Hs|].
  destruct (execute_protocol accept_all stub_transfer 2 3 s 1 Hs eq_refl eq_refl)
    as (s' & Hrun & _).
  destruct (execute_protocol accept_all stub_refused 2 3 s 1 Hs eq_refl eq_refl)
    as (s'' & Hfail & Hperf & Hclock & _).
  rewrite Hrun, Hfail. cbn [fst snd].
  split; [reflexivity|]. split; [by vm_compute|].
  split; [rewrite Hperf; by vm_compute|rewrite Hclock; by vm_compute].
Defined.



(** C5 as stated fails for a value that holds a NUL: both separators are
    absent from every key and value, yet the engine and the registry receive
    the string cut at the NUL, which decodes to one pair instead of two.
    And on a closed connection the empty list is not a no-op: the call
    throws. *)
Lemma SET_fields_nul_truncates :
  let fields := [("k", String "v" (String Ascii.zero "w")); ("b", "2")] in
  let s := (HTTPSPostConnection0 accept_all (Some 1%positive) world0).1 in
  let r := SET_fields accept_all fields s in
  Forall clean_field fields
  ∧ r.2 = Ok tt
  ∧ easy_opts r.1 !! CURLOPT_COPYPOSTFIELDS = Some (PStr "k=v")
  ∧ _options r.1 !! CURLOPT_COPYPOSTFIELDS = Some "k=v"
  ∧ fields_str_to_map "k=v" = [("k", "v")]
  ∧ (fields_str_to_map <$> _options r.1 !! CURLOPT_COPYPOSTFIELDS)
    ≠ Some fields
  ∧ (SET_fields accept_all [] world0).2 = Throw (CurlException closed_msg).
Proof.
  intros fields s r.
  assert (_options r.1 !! CURLOPT_COPYPOSTFIELDS = Some "k=v") as H
    by (by vm_compute).
  split; [repeat constructor|]. split; [by vm_compute|].
  split; [by vm_compute|]. split; [exact H|]. split; [by vm_compute|].
  split; [rewrite H; by vm_compute|by vm_compute].
Qed.

Lemma SET_fields_roundtrip_witness :
  let s := (HTTPSPostConnection0 accept_all (Some 1%positive) world0).1 in
  let r := SET_fields accept_all [("a", "1"); ("b", "2")] s in
  fields_wire [("a", "1"); ("b", "2")] = "a=1&b=2"
  ∧ fields_str_to_map "a=1&b=2" = [("a", "1"); ("b", "2")]
  ∧ r.2 = Ok tt
  ∧ _options r.1 !! CURLOPT_COPYPOSTFIELDS = Some "a=1&b=2"
  ∧ easy_opts r.1 !! CURLOPT_COPYPOSTFIELDS = Some (PStr "a=1&b=2").
Proof.
  intros s r.
  assert (_handle s = Some 1%positive) as Hs by (by vm_compute).
  assert (Forall clean_field [("a", "1"); ("b", "2")]) as Hclean
    by (repeat constructor).
  assert (Forall nul_free_field [("a", "1"); ("b", "2")]) as Hnul
    by (repeat constructor).
  pose proof (SET_fields_roundtrip accept_all [("a", "1"); ("b", "2")] s 1
                Hs Hclean Hnul) as (Hw & _ & _ & Hrt & Hrun & Ho & He & _).
  split; [exact Hw|]. split; [exact Hrt|].
  subst r. rewrite Hrun. cbn [accept_all fst snd].
  split; [reflexivity|]. split; [exact Ho|exact He].
Defined.



Lemma variant_profiles_witness :
  let c := (HTTPSPostConnection1 accept_all (Some 1%positive)
              "https://example.test/api" world0) in
  c.2 = Ok tt
  ∧ setopt_log c.1
    = [ (CURLOPT_NOSIGNAL, PLong 1);
        (CURLOPT_URL, PStr "https://example.test/api");
        (CURLOPT_SSL_VERIFYPEER, PLong 1);
        (CURLOPT_SSL_VERIFYHOST, PLong 2);
        (CURLOPT_POST, PLong 1);
        (CURLOPT_ACCEPT_ENCODING, PStr "gzip");
        (CURLOPT_TCP_KEEPALIVE, PLong 1) ].
Proof.
  intros c.
  destruct (variant_profiles accept_all (Some 1%positive) world0
              "https://example.test/api" 1 eq_refl (fun _ _ => eq_refl))
    as [(_ & _ & _ & _ & _ & Hpost) Hcalls].
  subst c. rewrite Hpost. split; [reflexivity|].
  apply (Hcalls _).
Defined.

Lemma ADD_headers_not_atomic_witness :
  let s := (bind (CurlConnection0 accept_all (Some 1%positive))
                 (fun _ => ADD_headers accept_all alloc_two [("A", "1")])
                 world0).1 in
  let r := ADD_headers accept_all alloc_two [("B", "2"); ("C", "3")] s in
  _header s = Some 1%positive
  ∧ r.2 = Throw (CurlOptionException
                   "curl_slist_append failed trying to add header"
                   CURLOPT_HEADER "C: 3")
  ∧ _header r.1 = None
  ∧ _options r.1 !! CURLOPT_HTTPHEADER = Some "1"
  ∧ easy_opts r.1 !! CURLOPT_HTTPHEADER = Some (PPtr (Some 1%positive))
  ∧ slists r.1 !! 1%positive = Some ["A: 1"; "B: 2"].
Proof.
  intros s r.
  assert (_handle s = Some 1%positive) as Hs by (by vm_compute).
  assert (_header s = Some 1%positive) as Hhd by (by vm_compute).
  destruct (ADD_headers_not_atomic accept_all alloc_two
              [("B", "2")] ("C", "3") [] s 1 Hs
              ltac:(by vm_compute) ltac:(by vm_compute))
    as (Hrun & Hnull & He & _ & Ho & Hlive & _).
  cbn [app] in Hrun. subst r. rewrite Hrun. cbn [fst snd].
  split; [exact Hhd|]. split; [reflexivity|]. split; [exact Hnull|].
  split; [rewrite Ho; by vm_compute|].
  split; [rewrite He; by vm_compute|].
  by vm_compute.
Defined.

(** ** The further properties at concrete inputs *)

Lemma fields_str_to_map_join_witness :
  fields_str_to_map "junk&k=v" = [("k", "v")].
Proof.
  destruct (fields_str_to_map_join "junk" "k=v") as (_ & _ & _ & H).
  exact (eq_trans (H eq_refl eq_refl) eq_refl).
Defined.


Lemma RESET_headers_dangling_witness :
  let s := (bind (CurlConnection0 accept_all (Some 1%positive))
                 (fun _ => ADD_headers accept_all alloc_all [("A", "1")])
                 world0).1 in
  _header s = Some 1%positive
  ∧ (RESET_headers s).2 = Ok tt
  ∧ _options (RESET_headers s).1 !! CURLOPT_HTTPHEADER = None
  ∧ easy_opts (RESET_headers s).1 !! CURLOPT_HTTPHEADER
      = Some (PPtr (Some 1%positive))
  ∧ slists (RESET_headers s).1 !! 1%positive = None.
Proof.
  intros s.
  assert (_header s = Some 1%positive) as Hhd by (by vm_compute).
  assert (easy_opts s !! CURLOPT_HTTPHEADER = Some (PPtr (Some 1%positive)))
    as He by (by vm_compute).
  destruct (RESET_headers_dangling s 1 Hhd He)
    as (Hrun & _ & Ho & _ & _ & He' & Hs & _).
  rewrite Hrun. cbn [fst snd]. by repeat split.
Defined.

Lemma RESET_headers_then_ADD_headers_witness :
  let s := (bind (CurlConnection0 accept_all (Some 1%positive))
                 (fun _ => ADD_headers accept_all alloc_all [("A", "1")])
                 world0).1 in
  ∃ s2,
    bind RESET_headers
         (fun _ => ADD_headers accept_all alloc_all [("B", "2")]) s
      = (s2, Ok tt)
    ∧ slist_data (_header s2) s2 = ["B: 2"].
Proof.
  intros s.
  assert (_handle s = Some 1%positive) as Hs by (by vm_compute).
  destruct (RESET_headers_then_ADD_headers accept_all alloc_all
              ("B", "2") [] s 1 Hs eq_refl eq_refl)
    as (s2 & Hrun & _ & Hdata & _).
  exists s2. split; [exact Hrun|exact Hdata].
Defined.

Lemma ADD_headers_accumulates_witness :
  let s := (CurlConnection0 accept_all (Some 1%positive) world0).1 in
  ∃ s12,
    bind (ADD_headers accept_all alloc_all [("A", "1")])
         (fun _ => ADD_headers accept_all alloc_all [("B", "2")]) s
      = (s12, Ok tt)
    ∧ slist_data (_header s12) s12 = ["A: 1"; "B: 2"].
Proof.
  intros s.
  destruct (ADD_headers_accumulates accept_all alloc_all
              ("A", "1") [] ("B", "2") [] s 1 eq_refl eq_refl eq_refl)
    as (s12 & s' & Hrun & _ & _ & _ & _ & _ & Hdata).
  exists s12. split; [exact Hrun|exact Hdata].
Defined.

Lemma SET_fields_rendered_witness :
  let s := (HTTPSPostConnection1 accept_all (Some 1%positive)
              "https://example.test/api" world0).1 in
  ∃ s',
    SET_fields accept_all [("k", "v"); ("q", "a=b")] s = (s', Ok tt)
    ∧ _options s' !! CURLOPT_COPYPOSTFIELDS = Some "k=v&q=a=b"
    ∧ render_entry s' (CURLOPT_COPYPOSTFIELDS, "k=v&q=a=b")
      = Some [ TAB +:+ "CURLOPT_COPYPOSTFIELDS:";
               pair_line ("k", "v"); pair_line ("q", "a=b") ].
Proof.
  intros s.
  assert (_handle s = Some 1%positive) as Hs by (by vm_compute).
  assert (Forall decodable_field [("k", "v"); ("q", "a=b")]) as Hd
    by (repeat constructor).
  assert (Forall nul_free_field [("k", "v"); ("q", "a=b")]) as Hn
    by (repeat constructor).
  destruct (SET_fields_rendered accept_all ("k", "v") [("q", "a=b")] s 1
              Hs Hd Hn eq_refl)
    as (s' & Hrun & Ho & _ & _ & Hr).
  exists s'. split; [exact Hrun|]. split; [exact Ho|exact Hr].
Defined.

Lemma ADD_headers_nul_in_name_witness :
  let s := (CurlConnection0 accept_all (Some 1%positive) world0).1 in
  let h := (String "A" (String Ascii.zero "B"), "1") in
  ∃ s',
    ADD_headers accept_all alloc_all [("X", "0"); h] s = (s', Ok tt)
    ∧ slist_data (_header s') s' = ["X: 0"; "A"]
    ∧ rendered_headers s' = None
    ∧ operator_shl by_code s' = None.
Proof.
  intros s h.
  assert (CURLOPT_HTTPHEADER ∈ by_code) as Hin by compute_done.
  destruct (ADD_headers_nul_in_name accept_all alloc_all
              [("X", "0")] h [] "A" "B" s 1 by_code
              eq_refl eq_refl eq_refl eq_refl eq_refl eq_refl Hin)
    as (s' & Hrun & _ & _ & Hren & _ & Hout).
  exists s'. split; [exact Hrun|]. split; [|by split].
  cbn [app] in Hrun.
  assert (s' = (ADD_headers accept_all alloc_all [("X", "0"); h] s).1) as ->
    by (by rewrite Hrun).
  by vm_compute.
Defined.

Lemma failed_ADD_headers_leaks_witness :
  let s := (bind (CurlConnection0 accept_all (Some 1%positive))
                 (fun _ => ADD_headers accept_all alloc_two [("A", "1")])
                 world0).1 in
  let s' := (ADD_headers accept_all alloc_two [("B", "2"); ("C", "3")] s).1 in
  (close s').2 = Ok tt
  ∧ _handle (close s').1 = None
  ∧ slists (close s').1 !! 1%positive = Some ["A: 1"; "B: 2"]
  ∧ render_entry s' (CURLOPT_HTTPHEADER, "1")
    = Some [TAB +:+ "CURLOPT_HTTPHEADER:"].
Proof.
  intros s s'.
  assert (_handle s = Some 1%positive) as Hs by (by vm_compute).
  destruct (failed_ADD_headers_leaks accept_all alloc_two
              [("B", "2")] ("C", "3") [] s 1 "1" Hs
              ltac:(done) ltac:(by vm_compute) ltac:(by vm_compute))
    as (Hok & _ & Hh & _ & Hlive & Hr).
  split; [exact Hok|]. split; [exact Hh|]. split; [|exact Hr].
  cbn [app] in Hlive. fold s' in Hlive.
  assert (head_after s = 1%positive) as E by (by vm_compute).
  rewrite E in Hlive. rewrite Hlive. by vm_compute.
Defined.


Lemma StreamerService_name_roundtrip_witness :
  StreamerService "LEVELONE_FOREX" = Returns LEVELONE_FOREX
  ∧ service_name_of LEVELONE_FOREX = "LEVELONE_FOREX".
Proof.
  destruct StreamerService_name_roundtrip as (Hfwd & _ & Hinj).
  split; [apply (Hfwd LEVELONE_FOREX)|].
  apply (Hinj _ "LEVELONE_FOREX" LEVELONE_FOREX);
    [apply (Hfwd LEVELONE_FOREX)|reflexivity].
Defined.

Lemma execute_binding_failure_witness :
  let s := (HTTPSGetConnection1 reject_writedata (Some 1%positive)
              "https://example.test/api" world0).1 in
  let r := execute reject_writedata stub_transfer 2 3 s in
  _handle s = Some 1%positive
  ∧ (∃ e, r.2 = Throw e)
  ∧ performs r.1 = performs s.
Proof.
  intros s r.
  assert (_handle s = Some 1%positive) as Hs by (by vm_compute).
  destruct (execute_binding_failure reject_writedata stub_transfer 2 3 s 1
              Hs eq_refl)
    as (s' & o & p & Hrun & _ & _ & Hperf & _).
  subst r. rewrite Hrun. cbn [fst snd].
  split; [exact Hs|]. split; [by eexists|exact Hperf].
Defined.
